(** * Creative Hut API ([back end/main.py]): a shallow embedding

    The module under verification is a FastAPI application over a
    PostgreSQL store (through SQLAlchemy) and an [uploads] directory.
    Every request handler of [main.py] is embedded as a function in a
    small state-and-exception monad over a [World]: the relational store
    plus the files of the uploads directory.

    - a table is the list of its rows, in table order, with the value of
      its id sequence;
    - [db.query(M).filter(..)] is a list filter, [.first()] its head,
      [.limit(n)] a prefix, [.all()] the list itself;
    - [db.add(x); db.commit(); db.refresh(x)] is one insertion step that
      checks the constraints the model classes declare (unique, foreign
      key) and raises [IntegrityError] when the store rejects the row;
    - [raise HTTPException(..)] ends the handler; what was written to the
      uploads directory before the raise stays written;
    - the route decorators are embedded as the route table they build,
      in source order, with the router's first-match dispatch. *)

From Stdlib Require Import ZArith QArith String.
From stdpp Require Import gmap strings list fin_maps.

#[local] Set Warnings "-clear-no-such-hyp".

Open Scope Z_scope.

(** ** Exceptions and results *)

Inductive Exception :=
| HTTPException (status_code : Z) (detail : string)
| IntegrityError.

Inductive Result (A : Type) :=
| Ok (a : A)
| Raise (e : Exception).
Arguments Ok {A} a.
Arguments Raise {A} e.

(** The error kinds of the API. *)
Definition NotFound (detail : string) : Exception := HTTPException 404 detail.
Definition Conflict : Exception := HTTPException 400 "Already enrolled".

Definition bytes := list Byte.byte.

(** ** Models (lines 51-129)

    A column that is nullable and that some insert of the module leaves
    unset is an [option]; a column every insert fills has its value
    type. Timestamps are seconds, read from the clock by the caller. *)

Module User.
Record t := mk {
  id : Z;
  name : string;
  email : string;
  role : string;
  bio : option string;
  skills : option string;
  rating : Q;
  profile_pic : option string
}.
(** Attribute assignments. *)
Definition set_name (v : string) (u : t) : t :=
  mk (id u) v (email u) (role u) (bio u) (skills u) (rating u) (profile_pic u).
Definition set_bio (v : string) (u : t) : t :=
  mk (id u) (name u) (email u) (role u) (Some v) (skills u) (rating u) (profile_pic u).
Definition set_skills (v : string) (u : t) : t :=
  mk (id u) (name u) (email u) (role u) (bio u) (Some v) (rating u) (profile_pic u).
Definition set_profile_pic (v : string) (u : t) : t :=
  mk (id u) (name u) (email u) (role u) (bio u) (skills u) (rating u) (Some v).
End User.

Module Gig.
Record t := mk {
  id : Z;
  title : string;
  description : string;
  category : string;
  price : Z;
  revisions : Z;
  delivery : Z;
  image_path : string;
  user_id : Z
}.
Definition set_title (v : string) (g : t) : t :=
  mk (id g) v (description g) (category g) (price g) (revisions g) (delivery g)
     (image_path g) (user_id g).
Definition set_category (v : string) (g : t) : t :=
  mk (id g) (title g) (description g) v (price g) (revisions g) (delivery g)
     (image_path g) (user_id g).
Definition set_price (v : Z) (g : t) : t :=
  mk (id g) (title g) (description g) (category g) v (revisions g) (delivery g)
     (image_path g) (user_id g).
End Gig.

Module Job.
Record t := mk {
  id : Z;
  title : string;
  description : string;
  category : string;
  status : string;
  freelancer : option string;
  budget_type : string;
  deadline : string;
  skills : string;
  buyer_id : Z
}.
Definition set_title (v : string) (j : t) : t :=
  mk (id j) v (description j) (category j) (status j) (freelancer j)
     (budget_type j) (deadline j) (skills j) (buyer_id j).
Definition set_category (v : string) (j : t) : t :=
  mk (id j) (title j) (description j) v (status j) (freelancer j)
     (budget_type j) (deadline j) (skills j) (buyer_id j).
Definition set_deadline (v : string) (j : t) : t :=
  mk (id j) (title j) (description j) (category j) (status j) (freelancer j)
     (budget_type j) v (skills j) (buyer_id j).
Definition set_status (v : string) (j : t) : t :=
  mk (id j) (title j) (description j) (category j) v (freelancer j)
     (budget_type j) (deadline j) (skills j) (buyer_id j).
Definition set_freelancer (v : option string) (j : t) : t :=
  mk (id j) (title j) (description j) (category j) (status j) v
     (budget_type j) (deadline j) (skills j) (buyer_id j).
End Job.

Module Application.
Record t := mk {
  id : Z;
  job_id : Z;
  freelancer_id : Z;
  message : string
}.
End Application.

Module Course.
Record t := mk {
  id : Z;
  title : string;
  instructor : string;
  description : string;
  category : string;
  price : Z;
  thumbnail : option string
}.
End Course.

Module Enrollment.
Record t := mk {
  id : Z;
  user_id : Z;
  course_id : Z;
  created_at : Z
}.
End Enrollment.

Module Contact.
Record t := mk {
  id : Z;
  name : string;
  email : string;
  message : string;
  submitted_at : Z
}.
End Contact.

(** ** The store *)

(** A table: its rows in table order and the last value its id sequence
    handed out. *)
Record Table (A : Type) := mkTable {
  rows : list A;
  seq : Z
}.
Arguments mkTable {A} rows seq.
Arguments rows {A} t.
Arguments seq {A} t.

Definition empty_table {A} : Table A := mkTable [] 0.

Record DB := mkDB {
  users : Table User.t;
  gigs : Table Gig.t;
  jobs : Table Job.t;
  applications : Table Application.t;
  courses : Table Course.t;
  enrollments : Table Enrollment.t;
  contacts : Table Contact.t
}.

(** The world a request runs in: the store and the files of the uploads
    directory, keyed by path. *)
Record World := mkWorld {
  db : DB;
  fs : gmap string bytes
}.

(** [Base.metadata.create_all] on a fresh database, empty directory. *)
Definition empty_db : DB :=
  mkDB empty_table empty_table empty_table empty_table
       empty_table empty_table empty_table.
Definition initial : World := mkWorld empty_db ∅.

Definition with_db (f : DB → DB) (w : World) : World :=
  mkWorld (f (db w)) (fs w).

Definition set_users (t : Table User.t) (d : DB) : DB :=
  mkDB t (gigs d) (jobs d) (applications d) (courses d) (enrollments d) (contacts d).
Definition set_gigs (t : Table Gig.t) (d : DB) : DB :=
  mkDB (users d) t (jobs d) (applications d) (courses d) (enrollments d) (contacts d).
Definition set_jobs (t : Table Job.t) (d : DB) : DB :=
  mkDB (users d) (gigs d) t (applications d) (courses d) (enrollments d) (contacts d).
Definition set_applications (t : Table Application.t) (d : DB) : DB :=
  mkDB (users d) (gigs d) (jobs d) t (courses d) (enrollments d) (contacts d).
Definition set_courses (t : Table Course.t) (d : DB) : DB :=
  mkDB (users d) (gigs d) (jobs d) (applications d) t (enrollments d) (contacts d).
Definition set_enrollments (t : Table Enrollment.t) (d : DB) : DB :=
  mkDB (users d) (gigs d) (jobs d) (applications d) (courses d) t (contacts d).
Definition set_contacts (t : Table Contact.t) (d : DB) : DB :=
  mkDB (users d) (gigs d) (jobs d) (applications d) (courses d) (enrollments d) t.

(** ** The handler monad *)

Definition Handler (A : Type) : Type := World → Result A * World.

#[export] Instance handler_ret : MRet Handler := λ A a w, (Ok a, w).
#[export] Instance handler_bind : MBind Handler := λ A B f m w,
  match m w with
  | (Ok a, w') => f a w'
  | (Raise e, w') => (Raise e, w')
  end.

Definition raise {A} (e : Exception) : Handler A := λ w, (Raise e, w).
Definition gets {A} (f : World → A) : Handler A := λ w, (Ok (f w), w).
Definition modify (f : World → World) : Handler unit := λ w, (Ok tt, f w).

(** ** Query combinators *)

Definition first {A} (q : list A) : option A := head q.
Definition limit {A} (n : nat) (q : list A) : list A := take n q.
Definition all {A} (q : list A) : list A := q.

(** Python truthiness of an optional string: [None] and [""] are false. *)
Definition truthy (s : option string) : bool :=
  match s with
  | Some s => bool_decide (s ≠ "")
  | None => false
  end.

(** [a or b] on an optional string and a default. *)
Definition py_or (a : option string) (b : string) : string :=
  match a with
  | Some s => if bool_decide (s ≠ "") then s else b
  | None => b
  end.

(** ** Table operations *)

(** The next value of the id sequence (a SERIAL column). *)
Definition nextval {A} (t : Table A) : Z := seq t + 1.

(** A committed insert: the row takes the next id, at the end. *)
Definition insert_row {A} (new : Z → A) (t : Table A) : Table A :=
  mkTable (rows t ++ [new (nextval t)]) (nextval t).

(** A rejected insert: no row, but the sequence value is consumed. *)
Definition reject_row {A} (t : Table A) : Table A :=
  mkTable (rows t) (nextval t).

(** [UPDATE .. WHERE id = i], the commit of attribute assignments on the
    object loaded with primary key [i]. *)
Definition update_rows {A} (id : A → Z) (i : Z) (f : A → A) (t : Table A) : Table A :=
  mkTable ((λ r, if decide (id r = i) then f r else r) <$> rows t) (seq t).

(** [DELETE .. WHERE id = i]. *)
Definition delete_rows {A} (id : A → Z) (i : Z) (t : Table A) : Table A :=
  mkTable (filter (λ r, id r ≠ i) (rows t)) (seq t).

(** The file write [open(path, "wb")] followed by [copyfileobj]. The
    [os.makedirs(uploads_dir, exist_ok=True)] before it creates the
    directory when it is missing and changes no file, so it has no step
    of its own here. *)
Definition write_file (path : string) (data : bytes) : Handler unit :=
  modify (λ w, mkWorld (db w) (<[path := data]> (fs w))).

Definition uploads_dir : string := "uploads".
Definition upload_path (filename : string) : string :=
  uploads_dir +:+ "/" +:+ filename.

(** [db.query(M)]: the rows of the model's table. *)
Definition query {A} (table : DB → Table A) : Handler (list A) :=
  gets (λ w, rows (table (db w))).

(** The constraints the model classes declare, as the store checks them
    when a row is inserted. *)
Definition user_ids (d : DB) : list Z := User.id <$> rows (users d).
Definition job_ids (d : DB) : list Z := Job.id <$> rows (jobs d).
Definition course_ids (d : DB) : list Z := Course.id <$> rows (courses d).

(** [email = Column(String, unique=True)] *)
Definition user_accepted (d : DB) (u : User.t) : bool :=
  bool_decide (User.email u ∉ User.email <$> rows (users d)).
(** [user_id = Column(Integer, ForeignKey("users.id"))] *)
Definition gig_accepted (d : DB) (g : Gig.t) : bool :=
  bool_decide (Gig.user_id g ∈ user_ids d).
(** [buyer_id = Column(Integer, ForeignKey("users.id"))] *)
Definition job_accepted (d : DB) (j : Job.t) : bool :=
  bool_decide (Job.buyer_id j ∈ user_ids d).
(** [ForeignKey("jobs.id")], [ForeignKey("users.id")] *)
Definition application_accepted (d : DB) (a : Application.t) : bool :=
  bool_decide (Application.job_id a ∈ job_ids d) &&
  bool_decide (Application.freelancer_id a ∈ user_ids d).
(** [ForeignKey("users.id")], [ForeignKey("courses.id")] *)
Definition enrollment_accepted (d : DB) (e : Enrollment.t) : bool :=
  bool_decide (Enrollment.user_id e ∈ user_ids d) &&
  bool_decide (Enrollment.course_id e ∈ course_ids d).
Definition unconstrained {A} (d : DB) (x : A) : bool := true.

(** [db.add(x); db.commit(); db.refresh(x)]: the row gets the next id of
    its table; a row the constraints reject raises [IntegrityError] out
    of the commit and leaves the rows as they were. *)
Definition add_commit_refresh {A} (table : DB → Table A)
    (set : Table A → DB → DB) (accepted : DB → A → bool)
    (new : Z → A) : Handler A := λ w,
  let t := table (db w) in
  let x := new (nextval t) in
  if accepted (db w) x
  then (Ok x, with_db (set (insert_row new t)) w)
  else (Raise IntegrityError, with_db (set (reject_row t)) w).

(** [db.commit()] after attribute assignments [assign] on the object
    loaded with primary key [i]. *)
Definition commit_update {A} (table : DB → Table A)
    (set : Table A → DB → DB) (id : A → Z) (i : Z) (assign : A → A)
    : Handler unit :=
  modify (with_db (λ d, set (update_rows id i assign (table d)) d)).

(** [db.delete(x); db.commit()] for the object with primary key [i]. *)
Definition delete_commit {A} (table : DB → Table A)
    (set : Table A → DB → DB) (id : A → Z) (i : Z) : Handler unit :=
  modify (with_db (λ d, set (delete_rows id i (table d)) d)).

(** [if v: obj.attr = v] *)
Definition if_truthy {A} (v : option string) (set : string → A → A) : A → A :=
  match v with
  | Some s => if truthy (Some s) then set s else id
  | None => id
  end.

(** ** Routes (lines 139-516) *)

Definition root : Handler string :=
  mret "Creative Hut API is running.".

(** *** User routes *)

Definition create_user (name email role : string) : Handler User.t :=
  add_commit_refresh users set_users user_accepted
    (λ i, User.mk i name email role None None 0 None).

Definition upload_profile_pic (user_id : Z) (filename : string) (image : bytes)
    : Handler (string * string) :=
  let image_path := upload_path filename in
  write_file image_path image;;
  q ← query users;
  match first (filter (λ u, User.id u = user_id) q) with
  | None => raise (NotFound "User not found")
  | Some user =>
      commit_update users set_users User.id (User.id user)
        (User.set_profile_pic image_path);;
      mret ("Profile picture updated", image_path)
  end.

Definition get_all_users : Handler (list User.t) :=
  q ← query users; mret (all q).

Definition get_user (user_id : Z) : Handler User.t :=
  q ← query users;
  match first (filter (λ u, User.id u = user_id) q) with
  | None => raise (NotFound "User not found")
  | Some user => mret user
  end.

(** The first [update_user] (line 183): every field is optional
    ([Form(None)]) and is assigned only when it is truthy. *)
Definition update_user_first (user_id : Z) (name bio skills : option string)
    : Handler User.t :=
  q ← query users;
  match first (filter (λ u, User.id u = user_id) q) with
  | None => raise (NotFound "User not found")
  | Some user =>
      let assign u :=
        if_truthy skills User.set_skills
          (if_truthy bio User.set_bio
             (if_truthy name User.set_name u)) in
      commit_update users set_users User.id (User.id user) assign;;
      mret (assign user)
  end.

Definition get_user_by_email (email : string) : Handler User.t :=
  q ← query users;
  match first (filter (λ u, User.email u = email) q) with
  | None => raise (NotFound "User not found")
  | Some user => mret user
  end.

(** The second [update_user] (line 204): every field is required
    ([Form(...)]) and is assigned. *)
Definition update_user_second (user_id : Z) (name bio skills : string)
    : Handler User.t :=
  q ← query users;
  match first (filter (λ u, User.id u = user_id) q) with
  | None => raise (NotFound "User not found")
  | Some user =>
      let assign u :=
        User.set_skills skills (User.set_bio bio (User.set_name name u)) in
      commit_update users set_users User.id (User.id user) assign;;
      mret (assign user)
  end.

(** *** Gig routes *)

Definition create_gig (title description category : string)
    (price revisions delivery user_id : Z)
    (filename : string) (image : bytes) : Handler Gig.t :=
  let image_path := upload_path filename in
  write_file image_path image;;
  add_commit_refresh gigs set_gigs gig_accepted
    (λ i, Gig.mk i title description category price revisions delivery
            image_path user_id).

Definition get_all_gigs : Handler (list Gig.t) :=
  q ← query gigs; mret (all q).

Definition get_gigs_by_freelancer (freelancer_id : Z) : Handler (list Gig.t) :=
  q ← query gigs;
  mret (all (filter (λ g, Gig.user_id g = freelancer_id) q)).

(** [os.path.exists(path)], then [FileResponse(path)]: the file's bytes. *)
Definition get_image (filename : string) : Handler bytes :=
  let path := upload_path filename in
  files ← gets fs;
  match files !! path with
  | None => raise (NotFound "Image not found")
  | Some content => mret content
  end.

Definition update_gig (gig_id : Z) (title category : string) (price : Z)
    : Handler Gig.t :=
  q ← query gigs;
  match first (filter (λ g, Gig.id g = gig_id) q) with
  | None => raise (NotFound "Gig not found")
  | Some gig =>
      let assign g :=
        Gig.set_price price (Gig.set_category category (Gig.set_title title g)) in
      commit_update gigs set_gigs Gig.id (Gig.id gig) assign;;
      mret (assign gig)
  end.

Definition delete_gig (gig_id : Z) : Handler string :=
  q ← query gigs;
  match first (filter (λ g, Gig.id g = gig_id) q) with
  | None => raise (NotFound "Gig not found")
  | Some gig =>
      delete_commit gigs set_gigs Gig.id (Gig.id gig);;
      mret "Gig deleted"
  end.

(** *** Job routes *)

Definition post_job (title description category budget_type deadline skills : string)
    (buyer_id : Z) : Handler Job.t :=
  add_commit_refresh jobs set_jobs job_accepted
    (λ i, Job.mk i title description category "Pending" None budget_type
            deadline skills buyer_id).

Definition get_all_jobs : Handler (list Job.t) :=
  q ← query jobs; mret (all q).

Definition get_jobs_by_buyer (buyer_id : Z) : Handler (list Job.t) :=
  q ← query jobs;
  mret (all (filter (λ j, Job.buyer_id j = buyer_id) q)).

Definition apply_to_job (job_id freelancer_id : Z) (message : string)
    : Handler Application.t :=
  add_commit_refresh applications set_applications application_accepted
    (λ i, Application.mk i job_id freelancer_id message).

(** [freelancer: str = Form(None)]: [None] when the field is left out. *)
Definition update_job (job_id : Z) (title category deadline status : string)
    (freelancer : option string) : Handler Job.t :=
  q ← query jobs;
  match first (filter (λ j, Job.id j = job_id) q) with
  | None => raise (NotFound "Job not found")
  | Some job =>
      let assign j :=
        Job.set_freelancer freelancer
          (Job.set_status status
             (Job.set_deadline deadline
                (Job.set_category category (Job.set_title title j)))) in
      commit_update jobs set_jobs Job.id (Job.id job) assign;;
      mret (assign job)
  end.

(** *** Course routes *)

(** [image: UploadFile = File(None)]: the file name and bytes, if sent. *)
Definition create_course (title instructor description category : string)
    (price : Z) (image : option (string * bytes)) : Handler Course.t :=
  image_path ←
    match image with
    | Some (filename, content) =>
        let image_path := upload_path filename in
        write_file image_path content;;
        mret (Some image_path)
    | None => mret None
    end;
  add_commit_refresh courses set_courses unconstrained
    (λ i, Course.mk i title instructor description category price image_path).

(** [category: str = Query(None)], [is_free: bool = Query(None)]. *)
Definition get_all_courses (category : option string) (is_free : option bool)
    : Handler (list Course.t) :=
  query ← query courses;
  let query :=
    match category with
    | Some c =>
        if truthy category
        then filter (λ r, Course.category r = c) query
        else query
    | None => query
    end in
  let query :=
    match is_free with
    | Some true => filter (λ r, Course.price r = 0) query
    | Some false => filter (λ r, 0 < Course.price r) query
    | None => query
    end in
  mret (all query).

Definition get_course (course_id : Z) : Handler Course.t :=
  q ← query courses;
  match first (filter (λ c, Course.id c = course_id) q) with
  | None => raise (NotFound "Course not found")
  | Some course => mret course
  end.

(** *** Enrollment routes *)

(** [now] is the value of [datetime.utcnow] when the row is created. *)
Definition enroll_in_course (now : Z) (user_id course_id : Z)
    : Handler (string * Z) :=
  q ← query enrollments;
  match first (filter (λ e, Enrollment.user_id e = user_id ∧
                            Enrollment.course_id e = course_id) q) with
  | Some existing => raise Conflict
  | None =>
      enrollment ←
        add_commit_refresh enrollments set_enrollments enrollment_accepted
          (λ i, Enrollment.mk i user_id course_id now);
      mret ("Enrollment successful", Enrollment.id enrollment)
  end.

Definition get_user_enrollments (user_id : Z) : Handler (list Enrollment.t) :=
  q ← query enrollments;
  let enrollments := all (filter (λ e, Enrollment.user_id e = user_id) q) in
  mret enrollments.

(** *** Top freelancers *)

Module GigData.
Record t := mk {
  title : string;
  price : Z;
  delivery : Z
}.
End GigData.

Module TopFreelancer.
Record t := mk {
  id : Z;
  name : string;
  skill : string;
  rating : Q;
  reviews : Z;
  profile_pic : option string;
  gigs : list GigData.t
}.
End TopFreelancer.

(** [for x in xs: body], threading the loop's accumulator. *)
Fixpoint for_each {A B} (xs : list A) (body : B → A → Handler B) (acc : B)
    : Handler B :=
  match xs with
  | [] => mret acc
  | x :: xs => acc ← body acc x; for_each xs body acc
  end.

Definition get_top_freelancers : Handler (list TopFreelancer.t) :=
  q ← query users;
  let top_users := all (limit 6 (filter (λ u, User.role u = "freelancer") q)) in
  for_each top_users (λ result user,
      q ← query gigs;
      let gigs := all (limit 1 (filter (λ g, Gig.user_id g = User.id user) q)) in
      let gig_data :=
        (λ gig, GigData.mk (Gig.title gig) (Gig.price gig) (Gig.delivery gig))
          <$> gigs in
      mret (result ++ [TopFreelancer.mk (User.id user) (User.name user)
                         (py_or (User.bio user) "Freelancer")
                         4.8 120 (User.profile_pic user) gig_data]))
    [].

(** *** Contact and dashboard *)

Definition submit_contact (now : Z) (name email message : string)
    : Handler (string * Z) :=
  contact ←
    add_commit_refresh contacts set_contacts unconstrained
      (λ i, Contact.mk i name email message now);
  mret ("Message received", Contact.id contact).

Module Summary.
Record t := mk {
  total_users : nat;
  total_gigs : nat;
  total_jobs : nat
}.
End Summary.

Definition get_dashboard_summary : Handler Summary.t :=
  us ← query users;
  gs ← query gigs;
  js ← query jobs;
  mret (Summary.mk (length us) (length gs) (length js)).

(** ** The route table

    Each [@app.<method>(path)] decorator appends one route to the
    application's router, in the order the decorators run; the name the
    [def] binds in the module plays no part. A path is given by its
    segments after the leading slash, so ["/users/"] is [users] followed
    by the empty segment. The router serves a request with the first
    route whose path and method both match; a route whose path alone
    matches is remembered and answers 405 when no route matches in full. *)

Inductive Method := GET | POST | PUT | DELETE.

#[export] Instance method_eq_dec : EqDecision Method.
Proof. solve_decision. Defined.

Inductive Segment :=
| Lit (s : string)
| Param (name : string).

Module Endpoint.
Inductive t :=
| root
| create_user
| upload_profile_pic
| get_all_users
| get_user
| update_user_first
| get_user_by_email
| update_user_second
| create_gig
| get_all_gigs
| get_gigs_by_freelancer
| get_image
| update_gig
| delete_gig
| post_job
| get_all_jobs
| get_jobs_by_buyer
| apply_to_job
| update_job
| create_course
| get_all_courses
| get_course
| enroll_in_course
| get_user_enrollments
| get_top_freelancers
| submit_contact
| get_dashboard_summary.
End Endpoint.

#[export] Instance endpoint_eq_dec : EqDecision Endpoint.t.
Proof. solve_decision. Defined.

Record Route := mkRoute {
  route_method : Method;
  route_path : list Segment;
  route_endpoint : Endpoint.t
}.

Definition routes : list Route := [
  mkRoute GET [Lit ""] Endpoint.root;
  mkRoute POST [Lit "users"; Lit ""] Endpoint.create_user;
  mkRoute POST [Lit "users"; Param "user_id"; Lit "upload-pic"]
    Endpoint.upload_profile_pic;
  mkRoute GET [Lit "users"; Lit ""] Endpoint.get_all_users;
  mkRoute GET [Lit "users"; Param "user_id"] Endpoint.get_user;
  mkRoute PUT [Lit "users"; Param "user_id"] Endpoint.update_user_first;
  mkRoute GET [Lit "users"; Lit "by-email"; Param "email"]
    Endpoint.get_user_by_email;
  mkRoute PUT [Lit "users"; Param "user_id"] Endpoint.update_user_second;
  mkRoute POST [Lit "gigs"; Lit ""] Endpoint.create_gig;
  mkRoute GET [Lit "gigs"; Lit ""] Endpoint.get_all_gigs;
  mkRoute GET [Lit "gigs"; Lit "freelancer"; Param "freelancer_id"]
    Endpoint.get_gigs_by_freelancer;
  mkRoute GET [Lit "gigs"; Lit "image"; Param "filename"] Endpoint.get_image;
  mkRoute PUT [Lit "gigs"; Param "gig_id"] Endpoint.update_gig;
  mkRoute DELETE [Lit "gigs"; Param "gig_id"] Endpoint.delete_gig;
  mkRoute POST [Lit "jobs"; Lit ""] Endpoint.post_job;
  mkRoute GET [Lit "jobs"; Lit ""] Endpoint.get_all_jobs;
  mkRoute GET [Lit "jobs"; Lit "buyer"; Param "buyer_id"]
    Endpoint.get_jobs_by_buyer;
  mkRoute POST [Lit "jobs"; Lit "apply"; Lit ""] Endpoint.apply_to_job;
  mkRoute PUT [Lit "jobs"; Param "job_id"] Endpoint.update_job;
  mkRoute POST [Lit "courses"; Lit ""] Endpoint.create_course;
  mkRoute GET [Lit "courses"; Lit ""] Endpoint.get_all_courses;
  mkRoute GET [Lit "courses"; Param "course_id"] Endpoint.get_course;
  mkRoute POST [Lit "enrollments"; Lit ""] Endpoint.enroll_in_course;
  mkRoute GET [Lit "enrollments"; Param "user_id"]
    Endpoint.get_user_enrollments;
  mkRoute GET [Lit "top-freelancers"; Lit ""] Endpoint.get_top_freelancers;
  mkRoute POST [Lit "contact"] Endpoint.submit_contact;
  mkRoute GET [Lit "dashboard-summary"; Lit ""] Endpoint.get_dashboard_summary
].

(** A path parameter [{name}] matches one non-empty segment. *)
Fixpoint match_path (pattern : list Segment) (path : list string)
    : option (list (string * string)) :=
  match pattern, path with
  | [], [] => Some []
  | Lit s :: pattern, x :: path =>
      if decide (s = x) then match_path pattern path else None
  | Param name :: pattern, x :: path =>
      if decide (x = "") then None
      else ((name, x) ::.) <$> match_path pattern path
  | _, _ => None
  end.

Inductive Dispatch :=
| Matched (endpoint : Endpoint.t) (path_params : list (string * string))
| MethodNotAllowed
| Redirect (path : list string)
| NoRoute.

(** The router's loop over its routes; [partial] records that some
    route matched the path but not the method. *)
Fixpoint route_request (rs : list Route) (m : Method) (path : list string)
    (partial : bool) : Dispatch :=
  match rs with
  | [] => if partial then MethodNotAllowed else NoRoute
  | r :: rs =>
      match match_path (route_path r) path with
      | Some path_params =>
          if decide (route_method r = m)
          then Matched (route_endpoint r) path_params
          else route_request rs m path true
      | None => route_request rs m path partial
      end
  end.

(** The path with its trailing slash removed ([rstrip("/")]) or added. *)
Fixpoint rstrip_slash (path : list string) : list string :=
  match path with
  | [] => []
  | x :: path =>
      match rstrip_slash path with
      | [] => if decide (x = "") then [] else [x]
      | rest => x :: rest
      end
  end.

Definition toggle_slash (path : list string) : list string :=
  if decide (last path = Some "") then rstrip_slash path else path ++ [""].

(** When no route matches, not even in its path alone, the router
    redirects to the path with the slash toggled if some route has that
    path, and answers 404 otherwise. *)
Definition dispatch (m : Method) (path : list string) : Dispatch :=
  match route_request routes m path false with
  | NoRoute =>
      let path' := toggle_slash path in
      if bool_decide (path ≠ [""]) &&
         existsb (λ r, bool_decide (is_Some (match_path (route_path r) path')))
           routes
      then Redirect path'
      else NoRoute
  | d => d
  end.

(** The status of the response the router gives by itself. *)
Definition router_status (d : Dispatch) : option Z :=
  match d with
  | Matched _ _ => None
  | MethodNotAllowed => Some 405
  | Redirect _ => Some 307
  | NoRoute => Some 404
  end.

(** ** Running handlers *)

Definition result {A} (r : Result A * World) : Result A := r.1.
Definition world_after {A} (r : Result A * World) : World := r.2.

(** What a handler raised, if it did. *)
Definition raised {A} (r : Result A * World) : option Exception :=
  match r.1 with
  | Ok _ => None
  | Raise e => Some e
  end.

(** ** The operations that take the id of one stored row *)

Inductive ByIdOp :=
| UserGet
| CourseGet
| UserUpdateFirst (name bio skills : option string)
| UserUpdateSecond (name bio skills : string)
| GigUpdate (title category : string) (price : Z)
| JobUpdate (title category deadline status : string) (freelancer : option string)
| GigDelete.

(** The handler of the operation, run on an id; its outcome is what it
    raised and the world it left. *)
Definition run_by_id (op : ByIdOp) (i : Z) (w : World)
    : option Exception * World :=
  match op with
  | UserGet => let r := get_user i w in (raised r, world_after r)
  | CourseGet => let r := get_course i w in (raised r, world_after r)
  | UserUpdateFirst name bio skills =>
      let r := update_user_first i name bio skills w in (raised r, world_after r)
  | UserUpdateSecond name bio skills =>
      let r := update_user_second i name bio skills w in (raised r, world_after r)
  | GigUpdate title category price =>
      let r := update_gig i title category price w in (raised r, world_after r)
  | JobUpdate title category deadline status freelancer =>
      let r := update_job i title category deadline status freelancer w in
      (raised r, world_after r)
  | GigDelete => let r := delete_gig i w in (raised r, world_after r)
  end.

(** The ids stored in the table the operation looks its row up in. *)
Definition stored_ids (op : ByIdOp) (w : World) : list Z :=
  match op with
  | UserGet | UserUpdateFirst _ _ _ | UserUpdateSecond _ _ _ => user_ids (db w)
  | CourseGet => course_ids (db w)
  | GigUpdate _ _ _ | GigDelete => Gig.id <$> rows (gigs (db w))
  | JobUpdate _ _ _ _ _ => job_ids (db w)
  end.

Definition not_found_detail (op : ByIdOp) : string :=
  match op with
  | UserGet | UserUpdateFirst _ _ _ | UserUpdateSecond _ _ _ => "User not found"
  | CourseGet => "Course not found"
  | GigUpdate _ _ _ | GigDelete => "Gig not found"
  | JobUpdate _ _ _ _ _ => "Job not found"
  end.

(** ** The words of the specification *)

(** An enrollment row with exactly this (user_id, course_id) pair exists. *)
Definition enrollment_pairs (w : World) : list (Z * Z) :=
  (λ e, (Enrollment.user_id e, Enrollment.course_id e))
    <$> rows (enrollments (db w)).
Definition enrolled (user_id course_id : Z) (w : World) : Prop :=
  (user_id, course_id) ∈ enrollment_pairs w.

#[export] Instance enrolled_dec user_id course_id w :
  Decision (enrolled user_id course_id w).
Proof. unfold enrolled. apply _. Defined.

(** Course List as the specification words it: a supplied category
    selects by equality, [is_free=true] selects price 0, [is_free=false]
    selects a positive price, and the two compose. *)
Definition listed (category : option string) (is_free : option bool)
    (c : Course.t) : bool :=
  match category with
  | Some s => bool_decide (Course.category c = s)
  | None => true
  end &&
  match is_free with
  | Some true => bool_decide (Course.price c = 0)
  | Some false => bool_decide (0 < Course.price c)
  | None => true
  end.

(** A job as Job Update leaves it: the four listed fields and the
    freelancer are the supplied values, the rest is the row's own. *)
Definition job_overwritten (title category deadline status : string)
    (freelancer : option string) (j : Job.t) : Job.t :=
  Job.mk (Job.id j) title (Job.description j) category status freelancer
         (Job.budget_type j) deadline (Job.skills j) (Job.buyer_id j).

(** A user as the full-overwrite User Update leaves it. *)
Definition user_overwritten (name bio skills : string) (u : User.t) : User.t :=
  User.mk (User.id u) name (User.email u) (User.role u) (Some bio) (Some skills)
          (User.rating u) (User.profile_pic u).

(** The entry the loop of [get_top_freelancers] appends for one user,
    given the rows of the gigs table. *)
Definition top_freelancer_entry (all_gigs : list Gig.t) (user : User.t)
    : TopFreelancer.t :=
  TopFreelancer.mk (User.id user) (User.name user)
    (py_or (User.bio user) "Freelancer") 4.8 120 (User.profile_pic user)
    ((λ gig, GigData.mk (Gig.title gig) (Gig.price gig) (Gig.delivery gig))
       <$> limit 1 (filter (λ g, Gig.user_id g = User.id user) all_gigs)).

(** ** Calls and reachable worlds *)

(** A request after validation: the endpoint and its arguments. Both
    definitions of [update_user] are calls, so that what is proved of
    every reachable world does not depend on the one the router serves. *)
Inductive Call :=
| CallRoot
| CallCreateUser (name email role : string)
| CallUploadProfilePic (user_id : Z) (filename : string) (image : bytes)
| CallGetAllUsers
| CallGetUser (user_id : Z)
| CallUpdateUserFirst (user_id : Z) (name bio skills : option string)
| CallGetUserByEmail (email : string)
| CallUpdateUserSecond (user_id : Z) (name bio skills : string)
| CallCreateGig (title description category : string)
    (price revisions delivery user_id : Z) (filename : string) (image : bytes)
| CallGetAllGigs
| CallGetGigsByFreelancer (freelancer_id : Z)
| CallGetImage (filename : string)
| CallUpdateGig (gig_id : Z) (title category : string) (price : Z)
| CallDeleteGig (gig_id : Z)
| CallPostJob (title description category budget_type deadline skills : string)
    (buyer_id : Z)
| CallGetAllJobs
| CallGetJobsByBuyer (buyer_id : Z)
| CallApplyToJob (job_id freelancer_id : Z) (message : string)
| CallUpdateJob (job_id : Z) (title category deadline status : string)
    (freelancer : option string)
| CallCreateCourse (title instructor description category : string)
    (price : Z) (image : option (string * bytes))
| CallGetAllCourses (category : option string) (is_free : option bool)
| CallGetCourse (course_id : Z)
| CallEnrollInCourse (user_id course_id : Z)
| CallGetUserEnrollments (user_id : Z)
| CallGetTopFreelancers
| CallSubmitContact (name email message : string)
| CallGetDashboardSummary.

(** The world a call leaves, at clock value [now]. *)
Definition run (now : Z) (c : Call) (w : World) : World :=
  match c with
  | CallRoot => world_after (root w)
  | CallCreateUser name email role => world_after (create_user name email role w)
  | CallUploadProfilePic user_id filename image =>
      world_after (upload_profile_pic user_id filename image w)
  | CallGetAllUsers => world_after (get_all_users w)
  | CallGetUser user_id => world_after (get_user user_id w)
  | CallUpdateUserFirst user_id name bio skills =>
      world_after (update_user_first user_id name bio skills w)
  | CallGetUserByEmail email => world_after (get_user_by_email email w)
  | CallUpdateUserSecond user_id name bio skills =>
      world_after (update_user_second user_id name bio skills w)
  | CallCreateGig title description category price revisions delivery user_id
      filename image =>
      world_after (create_gig title description category price revisions
                     delivery user_id filename image w)
  | CallGetAllGigs => world_after (get_all_gigs w)
  | CallGetGigsByFreelancer freelancer_id =>
      world_after (get_gigs_by_freelancer freelancer_id w)
  | CallGetImage filename => world_after (get_image filename w)
  | CallUpdateGig gig_id title category price =>
      world_after (update_gig gig_id title category price w)
  | CallDeleteGig gig_id => world_after (delete_gig gig_id w)
  | CallPostJob title description category budget_type deadline skills buyer_id =>
      world_after (post_job title description category budget_type deadline
                     skills buyer_id w)
  | CallGetAllJobs => world_after (get_all_jobs w)
  | CallGetJobsByBuyer buyer_id => world_after (get_jobs_by_buyer buyer_id w)
  | CallApplyToJob job_id freelancer_id message =>
      world_after (apply_to_job job_id freelancer_id message w)
  | CallUpdateJob job_id title category deadline status freelancer =>
      world_after (update_job job_id title category deadline status freelancer w)
  | CallCreateCourse title instructor description category price image =>
      world_after (create_course title instructor description category price
                     image w)
  | CallGetAllCourses category is_free =>
      world_after (get_all_courses category is_free w)
  | CallGetCourse course_id => world_after (get_course course_id w)
  | CallEnrollInCourse user_id course_id =>
      world_after (enroll_in_course now user_id course_id w)
  | CallGetUserEnrollments user_id => world_after (get_user_enrollments user_id w)
  | CallGetTopFreelancers => world_after (get_top_freelancers w)
  | CallSubmitContact name email message =>
      world_after (submit_contact now name email message w)
  | CallGetDashboardSummary => world_after (get_dashboard_summary w)
  end.

(** The worlds the API can bring about from the empty store. *)
Inductive reachable : World → Prop :=
| reachable_initial : reachable initial
| reachable_run now c w : reachable w → reachable (run now c w).

Definition run_all (now : Z) (cs : list Call) (w : World) : World :=
  foldl (λ w c, run now c w) w cs.

(** ** The invariant of the store *)

(** Primary key: the ids of a table are distinct and were all handed out
    by its sequence. *)
Definition ids_ok {A} (id : A → Z) (t : Table A) : Prop :=
  NoDup (id <$> rows t) ∧ ∀ r, r ∈ rows t → id r ≤ seq t.

Record Inv (w : World) : Prop := mkInv {
  inv_users : ids_ok User.id (users (db w));
  inv_gigs : ids_ok Gig.id (gigs (db w));
  inv_jobs : ids_ok Job.id (jobs (db w));
  inv_applications : ids_ok Application.id (applications (db w));
  inv_courses : ids_ok Course.id (courses (db w));
  inv_enrollments : ids_ok Enrollment.id (enrollments (db w));
  inv_contacts : ids_ok Contact.id (contacts (db w));
  inv_emails : NoDup (User.email <$> rows (users (db w)));
  inv_gig_owner :
    ∀ g, g ∈ rows (gigs (db w)) → Gig.user_id g ∈ user_ids (db w);
  inv_job_buyer :
    ∀ j, j ∈ rows (jobs (db w)) → Job.buyer_id j ∈ user_ids (db w);
  inv_application_refs :
    ∀ a, a ∈ rows (applications (db w)) →
      Application.job_id a ∈ job_ids (db w) ∧
      Application.freelancer_id a ∈ user_ids (db w);
  inv_enrollment_refs :
    ∀ e, e ∈ rows (enrollments (db w)) →
      Enrollment.user_id e ∈ user_ids (db w) ∧
      Enrollment.course_id e ∈ course_ids (db w);
  inv_enrollment_pairs : NoDup (enrollment_pairs w);
  inv_gig_image :
    ∀ g, g ∈ rows (gigs (db w)) →
      ∃ filename, Gig.image_path g = upload_path filename ∧
                  is_Some (fs w !! upload_path filename)
}.

(** ** Sample worlds *)

Definition png : bytes := [Byte.x89; Byte.x50; Byte.x4e; Byte.x47].
Definition jpg : bytes := [Byte.xff; Byte.xd8; Byte.xff].

Definition logo_gig : Gig.t :=
  Gig.mk 1 "Logo design" "A logo" "Design" 50 2 3 "uploads/logo.png" 1.

(** Ana, her gig, two jobs of hers (the second one assigned), and three
    courses, created through the API. *)
Definition demo : World :=
  run_all 1700000000 [
    CallCreateUser "Ana" "ana@x.com" "freelancer";
    CallUpdateUserSecond 1 "Ana" "Designer" "logos";
    CallCreateGig "Logo design" "A logo" "Design" 50 2 3 1 "logo.png" png;
    CallPostJob "Landing page" "Build it" "Web" "fixed" "June" "html" 1;
    CallPostJob "Poster" "Draw it" "Design" "hourly" "July" "ink" 1;
    CallUpdateJob 2 "Poster" "Design" "July" "In Progress" (Some "Ana");
    CallCreateCourse "Colour" "Bo" "Colour theory" "Design" 0 None;
    CallCreateCourse "Type" "Cy" "Typography" "Design" 30 None;
    CallCreateCourse "Python" "Di" "Basics" "Code" 0 None
  ] initial.

(** ** Calls and the route table *)

(** The endpoint a call runs. *)
Definition call_endpoint (c : Call) : Endpoint.t :=
  match c with
  | CallRoot => Endpoint.root
  | CallCreateUser _ _ _ => Endpoint.create_user
  | CallUploadProfilePic _ _ _ => Endpoint.upload_profile_pic
  | CallGetAllUsers => Endpoint.get_all_users
  | CallGetUser _ => Endpoint.get_user
  | CallUpdateUserFirst _ _ _ _ => Endpoint.update_user_first
  | CallGetUserByEmail _ => Endpoint.get_user_by_email
  | CallUpdateUserSecond _ _ _ _ => Endpoint.update_user_second
  | CallCreateGig _ _ _ _ _ _ _ _ _ => Endpoint.create_gig
  | CallGetAllGigs => Endpoint.get_all_gigs
  | CallGetGigsByFreelancer _ => Endpoint.get_gigs_by_freelancer
  | CallGetImage _ => Endpoint.get_image
  | CallUpdateGig _ _ _ _ => Endpoint.update_gig
  | CallDeleteGig _ => Endpoint.delete_gig
  | CallPostJob _ _ _ _ _ _ _ => Endpoint.post_job
  | CallGetAllJobs => Endpoint.get_all_jobs
  | CallGetJobsByBuyer _ => Endpoint.get_jobs_by_buyer
  | CallApplyToJob _ _ _ => Endpoint.apply_to_job
  | CallUpdateJob _ _ _ _ _ _ => Endpoint.update_job
  | CallCreateCourse _ _ _ _ _ _ => Endpoint.create_course
  | CallGetAllCourses _ _ => Endpoint.get_all_courses
  | CallGetCourse _ => Endpoint.get_course
  | CallEnrollInCourse _ _ => Endpoint.enroll_in_course
  | CallGetUserEnrollments _ => Endpoint.get_user_enrollments
  | CallGetTopFreelancers => Endpoint.get_top_freelancers
  | CallSubmitContact _ _ _ => Endpoint.submit_contact
  | CallGetDashboardSummary => Endpoint.get_dashboard_summary
  end.

(** The method of the route that registers an endpoint. *)
Definition endpoint_method (e : Endpoint.t) : option Method :=
  route_method <$>
    List.find (λ r, bool_decide (route_endpoint r = e)) routes.

(** A request for each endpoint: its route's method and its path with
    every parameter filled in. *)
Definition request_for (e : Endpoint.t) : Method * list string :=
  match e with
  | Endpoint.root => (GET, [""])
  | Endpoint.create_user => (POST, ["users"; ""])
  | Endpoint.upload_profile_pic => (POST, ["users"; "1"; "upload-pic"])
  | Endpoint.get_all_users => (GET, ["users"; ""])
  | Endpoint.get_user => (GET, ["users"; "1"])
  | Endpoint.update_user_first => (PUT, ["users"; "1"])
  | Endpoint.get_user_by_email => (GET, ["users"; "by-email"; "ana@x.com"])
  | Endpoint.update_user_second => (PUT, ["users"; "1"])
  | Endpoint.create_gig => (POST, ["gigs"; ""])
  | Endpoint.get_all_gigs => (GET, ["gigs"; ""])
  | Endpoint.get_gigs_by_freelancer => (GET, ["gigs"; "freelancer"; "1"])
  | Endpoint.get_image => (GET, ["gigs"; "image"; "logo.png"])
  | Endpoint.update_gig => (PUT, ["gigs"; "1"])
  | Endpoint.delete_gig => (DELETE, ["gigs"; "1"])
  | Endpoint.post_job => (POST, ["jobs"; ""])
  | Endpoint.get_all_jobs => (GET, ["jobs"; ""])
  | Endpoint.get_jobs_by_buyer => (GET, ["jobs"; "buyer"; "1"])
  | Endpoint.apply_to_job => (POST, ["jobs"; "apply"; ""])
  | Endpoint.update_job => (PUT, ["jobs"; "1"])
  | Endpoint.create_course => (POST, ["courses"; ""])
  | Endpoint.get_all_courses => (GET, ["courses"; ""])
  | Endpoint.get_course => (GET, ["courses"; "1"])
  | Endpoint.enroll_in_course => (POST, ["enrollments"; ""])
  | Endpoint.get_user_enrollments => (GET, ["enrollments"; "1"])
  | Endpoint.get_top_freelancers => (GET, ["top-freelancers"; ""])
  | Endpoint.submit_contact => (POST, ["contact"])
  | Endpoint.get_dashboard_summary => (GET, ["dashboard-summary"; ""])
  end.

(** The last ids the sequences of two stores handed out, compared
    table by table. *)
Definition seq_le (d d' : DB) : Prop :=
  seq (users d) ≤ seq (users d') ∧
  seq (gigs d) ≤ seq (gigs d') ∧
  seq (jobs d) ≤ seq (jobs d') ∧
  seq (applications d) ≤ seq (applications d') ∧
  seq (courses d) ≤ seq (courses d') ∧
  seq (enrollments d) ≤ seq (enrollments d') ∧
  seq (contacts d) ≤ seq (contacts d').


(** What the dashboard counts. *)
Definition counted (w : World) : nat * nat * nat :=
  (length (rows (users (db w))), length (rows (gigs (db w))),
   length (rows (jobs (db w)))).

(** * Properties *)

(** ** Lookups by [filter(..).first()] *)

Lemma first_filter_None {A} (P : A → Prop) `{∀ x, Decision (P x)} (l : list A) :
  first (filter P l) = None ↔ ∀ x, x ∈ l → ¬ P x.
Proof.
  unfold first. rewrite head_None. split.
  - intros Hnil x Hx HP.
    assert (x ∈ filter P l) as Hin by (apply list_elem_of_filter; done).
    rewrite Hnil in Hin. by apply not_elem_of_nil in Hin.
  - intros Hno. destruct (filter P l) as [|y l'] eqn:E; [done|].
    assert (y ∈ filter P l) as Hin by (rewrite E; left).
    apply list_elem_of_filter in Hin as [HP Hin]. by destruct (Hno y Hin).
Qed.

Lemma first_filter_Some {A} (P : A → Prop) `{∀ x, Decision (P x)} (l : list A) x :
  first (filter P l) = Some x → P x ∧ x ∈ l.
Proof.
  unfold first. intros Hhd. apply head_Some_elem_of in Hhd.
  by apply list_elem_of_filter in Hhd.
Qed.

Lemma first_filter_is_Some {A} (P : A → Prop) `{∀ x, Decision (P x)} (l : list A) x :
  x ∈ l → P x → is_Some (first (filter P l)).
Proof.
  intros Hin HP. destruct (first (filter P l)) eqn:E; [eauto|].
  rewrite first_filter_None in E. by destruct (E x Hin).
Qed.

Lemma no_row_with_id {A} (id : A → Z) (l : list A) (i : Z) :
  i ∉ id <$> l → first (filter (λ r, id r = i) l) = None.
Proof.
  intros Hni. apply first_filter_None. intros x Hx <-.
  apply Hni, list_elem_of_fmap. eauto.
Qed.

Lemma row_with_id {A} (id : A → Z) (l : list A) (i : Z) :
  i ∈ id <$> l →
  ∃ r, first (filter (λ r, id r = i) l) = Some r ∧ id r = i ∧ r ∈ l.
Proof.
  intros Hin. apply list_elem_of_fmap in Hin as (x & -> & Hx).
  destruct (first_filter_is_Some (λ r, id r = id x) l x Hx eq_refl) as [r Hr].
  exists r. split; [done|]. by apply first_filter_Some in Hr.
Qed.

(** Unfolding a handler down to its steps on the world. *)
Ltac run_handler :=
  unfold query, gets, modify, raise, write_file, commit_update, delete_commit;
  unfold mbind, handler_bind, mret, handler_ret; simpl.

(** Settling a decidable statement about concrete data by evaluation. *)
Ltac compute_decision :=
  match goal with
  | |- ?P => apply (@bool_decide_eq_true_1 P _); vm_compute; reflexivity
  end.

(** ** A missing id: the handler raises 404 and leaves the world alone *)

Lemma get_user_missing w i :
  i ∉ user_ids (db w) →
  get_user i w = (Raise (NotFound "User not found"), w).
Proof.
  intros Hni. unfold get_user. run_handler.
  by rewrite (no_row_with_id User.id _ _ Hni).
Qed.

Lemma get_course_missing w i :
  i ∉ course_ids (db w) →
  get_course i w = (Raise (NotFound "Course not found"), w).
Proof.
  intros Hni. unfold get_course. run_handler.
  by rewrite (no_row_with_id Course.id _ _ Hni).
Qed.

Lemma update_user_first_missing w i name bio skills :
  i ∉ user_ids (db w) →
  update_user_first i name bio skills w = (Raise (NotFound "User not found"), w).
Proof.
  intros Hni. unfold update_user_first. run_handler.
  by rewrite (no_row_with_id User.id _ _ Hni).
Qed.

Lemma update_user_second_missing w i name bio skills :
  i ∉ user_ids (db w) →
  update_user_second i name bio skills w = (Raise (NotFound "User not found"), w).
Proof.
  intros Hni. unfold update_user_second. run_handler.
  by rewrite (no_row_with_id User.id _ _ Hni).
Qed.

Lemma update_gig_missing w i title category price :
  i ∉ Gig.id <$> rows (gigs (db w)) →
  update_gig i title category price w = (Raise (NotFound "Gig not found"), w).
Proof.
  intros Hni. unfold update_gig. run_handler.
  by rewrite (no_row_with_id Gig.id _ _ Hni).
Qed.

Lemma update_job_missing w i title category deadline status freelancer :
  i ∉ job_ids (db w) →
  update_job i title category deadline status freelancer w =
    (Raise (NotFound "Job not found"), w).
Proof.
  intros Hni. unfold update_job. run_handler.
  by rewrite (no_row_with_id Job.id _ _ Hni).
Qed.

Lemma delete_gig_missing w i :
  i ∉ Gig.id <$> rows (gigs (db w)) →
  delete_gig i w = (Raise (NotFound "Gig not found"), w).
Proof.
  intros Hni. unfold delete_gig. run_handler.
  by rewrite (no_row_with_id Gig.id _ _ Hni).
Qed.

(** C4. For an id that resolves to no stored row of the operation's
    table, each of user get, course get, user update (either
    definition), gig update, job update and gig delete raises
    HTTPException 404 with the entity's detail and leaves the whole
    world, store and uploads directory, as it was. *)
Theorem by_id_missing_not_found (op : ByIdOp) (i : Z) (w : World) :
  i ∉ stored_ids op w →
  run_by_id op i w = (Some (NotFound (not_found_detail op)), w).
Proof.
  intros Hni. destruct op; simpl in *.
  - by rewrite get_user_missing.
  - by rewrite get_course_missing.
  - by rewrite update_user_first_missing.
  - by rewrite update_user_second_missing.
  - by rewrite update_gig_missing.
  - by rewrite update_job_missing.
  - by rewrite delete_gig_missing.
Qed.

Lemma by_id_missing_not_found_witness :
  (7 ∉ stored_ids GigDelete demo) ∧
  run_by_id GigDelete 7 demo = (Some (NotFound "Gig not found"), demo).
Proof.
  assert (7 ∉ stored_ids GigDelete demo) as H by compute_decision.
  split; [exact H|]. exact (by_id_missing_not_found GigDelete 7 demo H).
Defined.

(** ** Enrollment *)

Lemma enrolled_row user_id course_id w :
  enrolled user_id course_id w ↔
  ∃ e, e ∈ rows (enrollments (db w)) ∧
       Enrollment.user_id e = user_id ∧ Enrollment.course_id e = course_id.
Proof.
  unfold enrolled, enrollment_pairs. rewrite list_elem_of_fmap. split.
  - intros (e & Heq & He). exists e. by simplify_eq.
  - intros (e & He & <- & <-). eauto.
Qed.

Lemma existing_enrollment user_id course_id w :
  first (filter (λ e, Enrollment.user_id e = user_id ∧
                      Enrollment.course_id e = course_id)
           (rows (enrollments (db w)))) = None ↔
  ¬ enrolled user_id course_id w.
Proof.
  rewrite first_filter_None, enrolled_row. split.
  - intros Hno (e & He & Hu & Hc). by apply (Hno e He).
  - intros Hno e He [Hu Hc]. apply Hno. eauto.
Qed.

Lemma enroll_in_course_conflict now user_id course_id w :
  enrolled user_id course_id w →
  enroll_in_course now user_id course_id w = (Raise Conflict, w).
Proof.
  intros Hen. unfold enroll_in_course. run_handler.
  destruct (first _) eqn:E; [done|].
  by apply existing_enrollment in E.
Qed.

Lemma enroll_in_course_new now user_id course_id w :
  ¬ enrolled user_id course_id w →
  enroll_in_course now user_id course_id w =
    let t := enrollments (db w) in
    let e := Enrollment.mk (nextval t) user_id course_id now in
    if enrollment_accepted (db w) e
    then (Ok ("Enrollment successful", Enrollment.id e),
          with_db (set_enrollments (insert_row (λ i, Enrollment.mk i user_id course_id now) t)) w)
    else (Raise IntegrityError, with_db (set_enrollments (reject_row t)) w).
Proof.
  intros Hne. apply existing_enrollment in Hne.
  unfold enroll_in_course. run_handler. rewrite Hne.
  unfold add_commit_refresh. simpl. by destruct (enrollment_accepted _ _).
Qed.

Lemma enrollment_accepted_refs (d : DB) (e : Enrollment.t) :
  enrollment_accepted d e = true ↔
  Enrollment.user_id e ∈ user_ids d ∧ Enrollment.course_id e ∈ course_ids d.
Proof.
  unfold enrollment_accepted.
  by rewrite andb_true_iff, !bool_decide_eq_true.
Qed.

(** C1, as the code has it. Enrollment Create raises the Conflict error
    (HTTPException 400) exactly when a row with that (user_id,
    course_id) pair is stored, and then changes nothing. When no such
    row is stored and user_id and course_id are ids of a stored user
    and a stored course (the foreign keys of the enrollments table),
    the call succeeds, appends exactly one row with that pair and the
    current timestamp, changes nothing else, and ListByUser(user_id)
    returns that row afterwards. *)
Theorem enroll_in_course_create now user_id course_id w :
  (result (enroll_in_course now user_id course_id w) = Raise Conflict ↔
   enrolled user_id course_id w) ∧
  (enrolled user_id course_id w →
   world_after (enroll_in_course now user_id course_id w) = w) ∧
  (¬ enrolled user_id course_id w →
   user_id ∈ user_ids (db w) →
   course_id ∈ course_ids (db w) →
   let e := Enrollment.mk (nextval (enrollments (db w))) user_id course_id now in
   let w' := world_after (enroll_in_course now user_id course_id w) in
   result (enroll_in_course now user_id course_id w) =
     Ok ("Enrollment successful", Enrollment.id e) ∧
   rows (enrollments (db w')) = rows (enrollments (db w)) ++ [e] ∧
   w' = with_db (set_enrollments (mkTable (rows (enrollments (db w)) ++ [e])
                                    (Enrollment.id e))) w ∧
   ∃ l, get_user_enrollments user_id w' = (Ok l, w') ∧ e ∈ l).
Proof.
  split; [|split].
  - split.
    + intros Hres. destruct (decide (enrolled user_id course_id w)) as [|Hne]; [done|].
      rewrite (enroll_in_course_new _ _ _ _ Hne) in Hres. simpl in Hres.
      by destruct (enrollment_accepted _ _).
    + intros Hen. by rewrite enroll_in_course_conflict.
  - intros Hen. by rewrite enroll_in_course_conflict.
  - intros Hne Hu Hc e w'.
    assert (enrollment_accepted (db w) e = true) as Hacc
      by (apply enrollment_accepted_refs; done).
    subst e w'. rewrite (enroll_in_course_new _ _ _ _ Hne).
    cbv zeta. rewrite Hacc. simpl. repeat split.
    eexists. split; [reflexivity|].
    unfold all. apply list_elem_of_filter. split; [done|].
    apply elem_of_app. right. by apply list_elem_of_singleton.
Qed.

Lemma enroll_in_course_create_witness :
  (¬ enrolled 1 2 demo) ∧ (1 ∈ user_ids (db demo)) ∧ (2 ∈ course_ids (db demo)) ∧
  result (enroll_in_course 1700000600 1 2 demo) = Ok ("Enrollment successful", 1) ∧
  rows (enrollments (db (world_after (enroll_in_course 1700000600 1 2 demo)))) =
    [Enrollment.mk 1 1 2 1700000600].
Proof.
  assert (¬ enrolled 1 2 demo) as Hne by compute_decision.
  assert (1 ∈ user_ids (db demo)) as Hu by compute_decision.
  assert (2 ∈ course_ids (db demo)) as Hc by compute_decision.
  destruct (enroll_in_course_create 1700000600 1 2 demo) as (_ & _ & Hnew).
  destruct (Hnew Hne Hu Hc) as (Hres & Hrows & _).
  exact (conj Hne (conj Hu (conj Hc (conj Hres Hrows)))).
Defined.

(** C1 as the specification states it fails where the pair is new but
    the course id belongs to no stored course: the store rejects the
    row, the handler raises IntegrityError and no enrollment is added. *)
Lemma enroll_new_pair_not_always_created :
  (¬ enrolled 1 9 demo) ∧
  result (enroll_in_course 1700000600 1 9 demo) = Raise IntegrityError ∧
  rows (enrollments (db (world_after (enroll_in_course 1700000600 1 9 demo)))) = [] ∧
  get_user_enrollments 1 (world_after (enroll_in_course 1700000600 1 9 demo)) =
    (Ok [], world_after (enroll_in_course 1700000600 1 9 demo)).
Proof.
  split; [compute_decision|]. vm_compute. repeat split; reflexivity.
Qed.

(** ** Course List *)

Lemma filter_all {A} (P : A → Prop) `{∀ x, Decision (P x)} (l : list A) :
  (∀ x, P x) → filter P l = l.
Proof.
  intros HP. induction l as [|x l IH]; [done|].
  by rewrite filter_cons_True, IH.
Qed.

Lemma listed_spec category is_free c :
  listed category is_free c ↔
  (∀ s, category = Some s → Course.category c = s) ∧
  (is_free = Some true → Course.price c = 0) ∧
  (is_free = Some false → 0 < Course.price c).
Proof.
  unfold listed. rewrite andb_True.
  destruct category as [s|], is_free as [[|]|];
    rewrite ?bool_decide_spec; naive_solver.
Qed.

Lemma truthy_Some s : s ≠ "" → truthy (Some s) = true.
Proof. intros Hs. unfold truthy. by apply bool_decide_eq_true. Qed.

(** The handler's two filters, one after the other, as one filter. *)
Lemma get_all_courses_listed category is_free w :
  category ≠ Some "" →
  get_all_courses category is_free w =
    (Ok (filter (listed category is_free) (rows (courses (db w)))), w).
Proof.
  intros Hcat. unfold get_all_courses, all. run_handler. do 2 f_equal.
  destruct category as [s|].
  - rewrite truthy_Some by congruence.
    destruct is_free as [[|]|].
    + rewrite list_filter_filter. apply list_filter_iff. intros c.
      rewrite listed_spec. naive_solver.
    + rewrite list_filter_filter. apply list_filter_iff. intros c.
      rewrite listed_spec. naive_solver.
    + apply list_filter_iff. intros c. rewrite listed_spec. naive_solver.
  - destruct is_free as [[|]|].
    + apply list_filter_iff. intros c. rewrite listed_spec. naive_solver.
    + apply list_filter_iff. intros c. rewrite listed_spec. naive_solver.
    + symmetry. apply filter_all. intros c. by apply listed_spec.
Qed.

(** C3, as the code has it. With the category omitted or supplied as a
    non-empty string, Course List returns, in table order, exactly the
    stored courses whose category equals the supplied string
    (character for character), whose price is 0 under is_free=true and
    positive under is_free=false; both conditions apply when both
    filters are supplied, and with both omitted every stored course is
    returned. The world is left as it was. *)
Theorem get_all_courses_filters category is_free w :
  category ≠ Some "" →
  ∃ l, get_all_courses category is_free w = (Ok l, w) ∧
       l = filter (listed category is_free) (rows (courses (db w))) ∧
       (∀ c, c ∈ l ↔
             c ∈ rows (courses (db w)) ∧
             (∀ s, category = Some s → Course.category c = s) ∧
             (is_free = Some true → Course.price c = 0) ∧
             (is_free = Some false → 0 < Course.price c)) ∧
       (category = None → is_free = None → l = rows (courses (db w))).
Proof.
  intros Hcat. eexists. split; [by apply get_all_courses_listed|].
  split; [done|]. split.
  - intros c. rewrite list_elem_of_filter, listed_spec. naive_solver.
  - intros -> ->. apply filter_all. intros c. by apply listed_spec.
Qed.

Lemma get_all_courses_filters_witness :
  Some "Design" ≠ Some "" ∧
  get_all_courses (Some "Design") (Some true) demo =
    (Ok [Course.mk 1 "Colour" "Bo" "Colour theory" "Design" 0 None], demo) ∧
  get_all_courses (Some "design") None demo = (Ok [], demo).
Proof.
  assert (Some "Design" ≠ Some "") as H1 by discriminate.
  assert (Some "design" ≠ Some "") as H2 by discriminate.
  destruct (get_all_courses_filters (Some "Design") (Some true) demo H1)
    as (l1 & Hrun1 & -> & _).
  destruct (get_all_courses_filters (Some "design") None demo H2)
    as (l2 & Hrun2 & -> & _).
  exact (conj H1 (conj Hrun1 Hrun2)).
Defined.

(** C3 as the specification states it fails for a category supplied as
    the empty string: the course returned has category "Design". *)
Lemma get_all_courses_empty_category_not_exact :
  get_all_courses (Some "") (Some false) demo =
    (Ok [Course.mk 2 "Type" "Cy" "Typography" "Design" 30 None], demo) ∧
  filter (listed (Some "") (Some false)) (rows (courses (db demo))) = [] ∧
  Course.category (Course.mk 2 "Type" "Cy" "Typography" "Design" 30 None) ≠ "".
Proof. vm_compute. repeat split; discriminate. Qed.

(** C10. Course List with category "" behaves as with the category
    omitted: it returns the courses the is_free filter alone selects,
    whatever their category. *)
Theorem get_all_courses_empty_category is_free w :
  get_all_courses (Some "") is_free w = get_all_courses None is_free w ∧
  get_all_courses (Some "") is_free w =
    (Ok (filter (listed None is_free) (rows (courses (db w)))), w) ∧
  (∀ c, c ∈ rows (courses (db w)) → listed None is_free c →
        ∃ l, result (get_all_courses (Some "") is_free w) = Ok l ∧ c ∈ l).
Proof.
  assert (get_all_courses (Some "") is_free w = get_all_courses None is_free w)
    as Heq by reflexivity.
  split; [done|]. rewrite Heq, get_all_courses_listed by done.
  split; [done|]. intros c Hc Hl. eexists. split; [reflexivity|].
  by apply list_elem_of_filter.
Qed.

Lemma get_all_courses_empty_category_witness :
  get_all_courses (Some "") (Some true) demo =
    (Ok [Course.mk 1 "Colour" "Bo" "Colour theory" "Design" 0 None;
         Course.mk 3 "Python" "Di" "Basics" "Code" 0 None], demo).
Proof.
  destruct (get_all_courses_empty_category (Some true) demo) as (_ & Hrun & _).
  exact Hrun.
Defined.

(** ** Top freelancers *)

(** A loop whose body only reads the world and appends one entry. *)
Lemma for_each_append {A B} (xs : list A) (body : list B → A → Handler (list B))
    (entry : A → B) (w : World) (acc : list B) :
  (∀ acc x, body acc x w = (Ok (acc ++ [entry x]), w)) →
  for_each xs body acc w = (Ok (acc ++ (entry <$> xs)), w).
Proof.
  intros Hbody. revert acc. induction xs as [|x xs IH]; intros acc; simpl.
  - by rewrite app_nil_r.
  - unfold mbind, handler_bind. rewrite Hbody, IH.
    by rewrite <- app_assoc.
Qed.

Lemma get_top_freelancers_entries w :
  get_top_freelancers w =
    (Ok (top_freelancer_entry (rows (gigs (db w)))
           <$> take 6 (filter (λ u, User.role u = "freelancer")
                         (rows (users (db w))))), w).
Proof.
  unfold get_top_freelancers. run_handler.
  by rewrite (for_each_append _ _ (top_freelancer_entry (rows (gigs (db w))))).
Qed.

(** C6. TopFreelancers returns at most 6 entries; each one carries the
    id, name and picture of a stored user whose role is "freelancer",
    at most 1 gig, which is a stored gig of that user, and the rating
    4.8 and review count 120 whatever the store holds. The world is
    left as it was. *)
Theorem get_top_freelancers_stub w :
  ∃ l, get_top_freelancers w = (Ok l, w) ∧
       (length l ≤ 6)%nat ∧
       ∀ e, e ∈ l →
         (∃ u, u ∈ rows (users (db w)) ∧ User.role u = "freelancer" ∧
               TopFreelancer.id e = User.id u ∧
               TopFreelancer.name e = User.name u ∧
               TopFreelancer.profile_pic e = User.profile_pic u) ∧
         (length (TopFreelancer.gigs e) ≤ 1)%nat ∧
         (∀ d, d ∈ TopFreelancer.gigs e →
               ∃ g, g ∈ rows (gigs (db w)) ∧
                    Gig.user_id g = TopFreelancer.id e ∧
                    d = GigData.mk (Gig.title g) (Gig.price g) (Gig.delivery g)) ∧
         TopFreelancer.rating e = 4.8%Q ∧
         TopFreelancer.reviews e = 120.
Proof.
  eexists. split; [apply get_top_freelancers_entries|]. split.
  - rewrite length_fmap, length_take. lia.
  - intros e (u & -> & Hu)%list_elem_of_fmap.
    apply elem_of_take in Hu as (k & Hk & _).
    apply list_elem_of_lookup_2, list_elem_of_filter in Hk as [Hrole Hin].
    split; [by exists u|].
    unfold top_freelancer_entry, limit.
    cbn [TopFreelancer.gigs TopFreelancer.id TopFreelancer.rating
         TopFreelancer.reviews].
    split; [|split; [|done]].
    + rewrite length_fmap, length_take. lia.
    + intros d (g & -> & Hg)%list_elem_of_fmap.
      apply elem_of_take in Hg as (k' & Hk' & _).
      apply list_elem_of_lookup_2, list_elem_of_filter in Hk' as [Hown Hgin].
      by exists g.
Qed.

Lemma get_top_freelancers_stub_witness :
  ∃ l, get_top_freelancers demo = (Ok l, demo) ∧ (length l ≤ 6)%nat ∧
       ∀ e, e ∈ l → TopFreelancer.rating e = 4.8%Q ∧ TopFreelancer.reviews e = 120.
Proof.
  destruct (get_top_freelancers_stub demo) as (l & Hrun & Hlen & Hall).
  exists l. split; [exact Hrun|]. split; [exact Hlen|].
  intros e He. destruct (Hall e He) as (_ & _ & _ & Hrating & Hreviews).
  exact (conj Hrating Hreviews).
Defined.

(** The placeholders do not follow the stored rating. *)
Example get_top_freelancers_demo :
  result (get_top_freelancers demo) =
    Ok [TopFreelancer.mk 1 "Ana" "Designer" 4.8 120 None
          [GigData.mk "Logo design" 50 3]] ∧
  User.rating <$> rows (users (db demo)) = [0%Q].
Proof. vm_compute. split; reflexivity. Qed.

(** ** Job Update *)

Lemma update_rows_lookup {A} (id : A → Z) (i : Z) (f : A → A) (t : Table A) k r :
  rows t !! k = Some r →
  rows (update_rows id i f t) !! k = Some (if decide (id r = i) then f r else r).
Proof. intros Hk. unfold update_rows. simpl. by rewrite list_lookup_fmap, Hk. Qed.

Lemma update_rows_length {A} (id : A → Z) (i : Z) (f : A → A) (t : Table A) :
  length (rows (update_rows id i f t)) = length (rows t).
Proof. unfold update_rows. simpl. by rewrite length_fmap. Qed.

(** Job Update on a stored id: the object loaded is the first row with
    that id, and the commit rewrites the rows with that id. *)
Lemma update_job_found w job_id title category deadline status freelancer :
  job_id ∈ job_ids (db w) →
  ∃ job, job ∈ rows (jobs (db w)) ∧ Job.id job = job_id ∧
    update_job job_id title category deadline status freelancer w =
      (Ok (job_overwritten title category deadline status freelancer job),
       with_db (λ d, set_jobs
                  (update_rows Job.id job_id
                     (job_overwritten title category deadline status freelancer)
                     (jobs d)) d) w).
Proof.
  intros Hin. destruct (row_with_id Job.id _ _ Hin) as (job & Hfirst & Hid & Hjob).
  exists job. split; [done|]. split; [done|].
  unfold update_job. run_handler. rewrite Hfirst. by rewrite Hid.
Qed.

(** C7, as the code has it. On a stored job, Job Update overwrites the
    title, category, deadline and status with the supplied values and
    the freelancer with the supplied value or null; the job's id,
    description, budget_type, skills and buyer keep their values, every
    other job keeps its row, and nothing else in the world changes. *)
Theorem update_job_overwrites w job_id title category deadline status freelancer :
  job_id ∈ job_ids (db w) →
  let w' := world_after
              (update_job job_id title category deadline status freelancer w) in
  (∃ job, job ∈ rows (jobs (db w)) ∧ Job.id job = job_id ∧
     result (update_job job_id title category deadline status freelancer w) =
       Ok (job_overwritten title category deadline status freelancer job)) ∧
  (∀ k r, rows (jobs (db w)) !! k = Some r → Job.id r = job_id →
     ∃ r', rows (jobs (db w')) !! k = Some r' ∧
       Job.title r' = title ∧ Job.category r' = category ∧
       Job.deadline r' = deadline ∧ Job.status r' = status ∧
       Job.freelancer r' = freelancer ∧
       Job.id r' = Job.id r ∧ Job.description r' = Job.description r ∧
       Job.budget_type r' = Job.budget_type r ∧ Job.skills r' = Job.skills r ∧
       Job.buyer_id r' = Job.buyer_id r) ∧
  (∀ k r, rows (jobs (db w)) !! k = Some r → Job.id r ≠ job_id →
     rows (jobs (db w')) !! k = Some r) ∧
  length (rows (jobs (db w'))) = length (rows (jobs (db w))) ∧
  db w' = set_jobs (jobs (db w')) (db w) ∧
  fs w' = fs w.
Proof.
  intros Hin w'.
  destruct (update_job_found w job_id title category deadline status freelancer Hin)
    as (job & Hjob & Hid & Hrun).
  subst w'. rewrite Hrun. unfold result, world_after, with_db.
  cbn [fst snd db fs jobs set_jobs].
  split; [by exists job|]. split; [|split; [|split; [|done]]].
  - intros k r Hk Hr.
    eexists. split; [by apply update_rows_lookup|].
    by rewrite decide_True.
  - intros k r Hk Hr.
    rewrite (update_rows_lookup _ _ _ _ _ _ Hk). by rewrite decide_False.
  - apply update_rows_length.
Qed.

Lemma update_job_overwrites_witness :
  (2 ∈ job_ids (db demo)) ∧
  ∃ r', rows (jobs (db (world_after
                  (update_job 2 "Poster A2" "Print" "August" "Done" None demo))))
          !! 1%nat = Some r' ∧
        Job.title r' = "Poster A2" ∧ Job.category r' = "Print" ∧
        Job.description r' = "Draw it" ∧ Job.buyer_id r' = 1.
Proof.
  assert (2 ∈ job_ids (db demo)) as H by compute_decision.
  split; [exact H|].
  destruct (update_job_overwrites demo 2 "Poster A2" "Print" "August" "Done" None H)
    as (_ & Hsame & _).
  destruct (Hsame 1%nat
              (Job.mk 2 "Poster" "Draw it" "Design" "In Progress" (Some "Ana")
                 "hourly" "July" "ink" 1) eq_refl eq_refl)
    as (r' & Hk & Ht & Hc & _ & _ & _ & _ & Hd & _ & _ & Hb).
  exists r'. exact (conj Hk (conj Ht (conj Hc (conj Hd Hb)))).
Defined.

(** C7 as the specification states it fails on the category, which it
    lists both as overwritten and as not updatable: the stored category
    "Design" becomes the supplied "Print". *)
Lemma update_job_category_not_retained :
  Job.category <$> rows (jobs (db demo)) = ["Web"; "Design"] ∧
  Job.category <$>
    rows (jobs (db (world_after
                      (update_job 2 "Poster" "Print" "July" "In Progress"
                         (Some "Ana") demo)))) = ["Web"; "Print"].
Proof. vm_compute. split; reflexivity. Qed.

(** C8. Job Update without the freelancer field stores null in the
    freelancer of the job, whatever name was stored there. *)
Theorem update_job_clears_freelancer w job_id title category deadline status :
  job_id ∈ job_ids (db w) →
  let w' := world_after (update_job job_id title category deadline status None w) in
  (∃ job, result (update_job job_id title category deadline status None w) = Ok job ∧
          Job.id job = job_id ∧ Job.freelancer job = None) ∧
  (∀ k r, rows (jobs (db w)) !! k = Some r → Job.id r = job_id →
     ∃ r', rows (jobs (db w')) !! k = Some r' ∧
           Job.id r' = job_id ∧ Job.freelancer r' = None).
Proof.
  intros Hin w'.
  destruct (update_job_found w job_id title category deadline status None Hin)
    as (job & Hjob & Hid & Hrun).
  subst w'. rewrite Hrun. unfold result, world_after, with_db.
  cbn [fst snd db fs jobs set_jobs]. split.
  - by eexists.
  - intros k r Hk Hr. eexists. split; [by apply update_rows_lookup|].
    by rewrite decide_True.
Qed.

Lemma update_job_clears_freelancer_witness :
  (2 ∈ job_ids (db demo)) ∧
  Job.freelancer <$> rows (jobs (db demo)) !! 1%nat = Some (Some "Ana") ∧
  ∃ r', rows (jobs (db (world_after
                  (update_job 2 "Poster" "Design" "July" "Done" None demo))))
          !! 1%nat = Some r' ∧
        Job.id r' = 2 ∧ Job.freelancer r' = None.
Proof.
  assert (2 ∈ job_ids (db demo)) as H by compute_decision.
  split; [exact H|]. split; [reflexivity|].
  destruct (update_job_clears_freelancer demo 2 "Poster" "Design" "July" "Done" H)
    as (_ & Hrow).
  exact (Hrow 1%nat
           (Job.mk 2 "Poster" "Draw it" "Design" "In Progress" (Some "Ana")
              "hourly" "July" "ink" 1) eq_refl eq_refl).
Defined.

(** ** Upload of a profile picture *)

(** C9. UploadPicture for a user_id that resolves to no stored user
    raises HTTPException 404 and leaves the store as it was, but by
    then the image has been written under uploads/<filename>: the file
    holds the uploaded bytes, replacing what a file of that name held,
    GetImage serves it, and no other file has changed. *)
Theorem upload_profile_pic_missing_user w user_id filename image :
  user_id ∉ user_ids (db w) →
  let w' := world_after (upload_profile_pic user_id filename image w) in
  result (upload_profile_pic user_id filename image w) =
    Raise (NotFound "User not found") ∧
  db w' = db w ∧
  fs w' = <[upload_path filename := image]> (fs w) ∧
  fs w' !! upload_path filename = Some image ∧
  (∀ path, path ≠ upload_path filename → fs w' !! path = fs w !! path) ∧
  get_image filename w' = (Ok image, w').
Proof.
  intros Hni w'.
  assert (upload_profile_pic user_id filename image w =
          (Raise (NotFound "User not found"),
           mkWorld (db w) (<[upload_path filename := image]> (fs w)))) as Hrun.
  { unfold upload_profile_pic. run_handler.
    by rewrite (no_row_with_id User.id _ _ Hni). }
  subst w'. rewrite Hrun. unfold result, world_after. cbn [fst snd db fs].
  split; [done|]. split; [done|]. split; [done|].
  split; [apply lookup_insert_eq|].
  split; [intros path Hne; by apply lookup_insert_ne|].
  unfold get_image. run_handler. by rewrite lookup_insert_eq.
Qed.

Lemma upload_profile_pic_missing_user_witness :
  (5 ∉ user_ids (db demo)) ∧
  fs demo !! upload_path "logo.png" = Some png ∧
  result (upload_profile_pic 5 "logo.png" jpg demo) =
    Raise (NotFound "User not found") ∧
  fs (world_after (upload_profile_pic 5 "logo.png" jpg demo))
    !! upload_path "logo.png" = Some jpg.
Proof.
  assert (5 ∉ user_ids (db demo)) as H by compute_decision.
  split; [exact H|]. split; [vm_compute; reflexivity|].
  destruct (upload_profile_pic_missing_user demo 5 "logo.png" jpg H)
    as (Hres & _ & _ & Hfile & _).
  exact (conj Hres Hfile).
Defined.

(** ** Routing *)

(** The route that serves a request is the first one, in registration
    order, whose method and path match. *)
Lemma route_request_first_match rs m path partial e ps :
  route_request rs m path partial = Matched e ps →
  ∃ i r, rs !! i = Some r ∧ route_endpoint r = e ∧ route_method r = m ∧
         match_path (route_path r) path = Some ps ∧
         ∀ j r', (j < i)%nat → rs !! j = Some r' →
                 ¬ (route_method r' = m ∧ is_Some (match_path (route_path r') path)).
Proof.
  revert partial. induction rs as [|r0 rs IH]; intros partial Hreq; simpl in Hreq.
  - by destruct partial.
  - destruct (match_path (route_path r0) path) as [ps0|] eqn:Hpath.
    + destruct (decide (route_method r0 = m)) as [Hm|Hm].
      * simplify_eq. exists 0%nat, r0. repeat split; [done|]. intros j r' Hj. lia.
      * destruct (IH _ Hreq) as (i & r & Hi & He & Hmr & Hp & Hbefore).
        exists (S i), r. repeat split; try done.
        intros [|j] r' Hj Hr'; simpl in Hr'.
        -- simplify_eq. by intros [? _].
        -- apply (Hbefore j r'); [lia|done].
    + destruct (IH _ Hreq) as (i & r & Hi & He & Hmr & Hp & Hbefore).
      exists (S i), r. repeat split; try done.
      intros [|j] r' Hj Hr'; simpl in Hr'.
      * simplify_eq. rewrite Hpath. by intros [_ [? ?]].
      * apply (Hbefore j r'); [lia|done].
Qed.

Lemma dispatch_matched m path e ps :
  dispatch m path = Matched e ps →
  route_request routes m path false = Matched e ps.
Proof.
  unfold dispatch. destruct (route_request routes m path false); try done.
  by case_match.
Qed.

(** No request reaches the second [update_user]: the first one has the
    same method and path and was registered before it. *)
Lemma update_user_second_shadowed m path ps :
  dispatch m path ≠ Matched Endpoint.update_user_second ps.
Proof.
  intros Hd. apply dispatch_matched, route_request_first_match in Hd
    as (i & r & Hi & He & Hm & Hp & Hbefore).
  assert (i = 7%nat) as ->.
  { unfold routes in Hi.
    do 27 (destruct i as [|i]; [simpl in Hi; simplify_eq; try done|]).
    done. }
  simpl in Hi. simplify_eq. simpl in *.
  apply (Hbefore 5%nat (mkRoute PUT [Lit "users"; Param "user_id"]
                          Endpoint.update_user_first)); [lia|done|].
  simpl. by rewrite Hp.
Qed.

Lemma update_user_route s :
  s ≠ "" →
  dispatch PUT ["users"; s] =
    Matched Endpoint.update_user_first [("user_id", s)].
Proof.
  intros Hs. unfold dispatch, routes. simpl.
  repeat (case_decide; simplify_eq; try done).
Qed.

(** A GET on /gigs/<id> has no route of its own: the path matches the
    PUT and DELETE routes only, and the router answers 405. *)
Lemma gig_get_route s :
  s ≠ "" → dispatch GET ["gigs"; s] = MethodNotAllowed.
Proof.
  intros Hs. unfold dispatch, routes. simpl.
  repeat (case_decide; simplify_eq; try done).
Qed.

(** ** User Update *)

(** The second definition on a stored user: all three fields are
    overwritten in the rows with that id. *)
Lemma update_user_second_found w user_id name bio skills :
  user_id ∈ user_ids (db w) →
  ∃ user, user ∈ rows (users (db w)) ∧ User.id user = user_id ∧
    update_user_second user_id name bio skills w =
      (Ok (user_overwritten name bio skills user),
       with_db (λ d, set_users
                  (update_rows User.id user_id (user_overwritten name bio skills)
                     (users d)) d) w).
Proof.
  intros Hin. destruct (row_with_id User.id _ _ Hin) as (user & Hfirst & Hid & Huser).
  exists user. split; [done|]. split; [done|].
  unfold update_user_second. run_handler. rewrite Hfirst. by rewrite Hid.
Qed.

(** The first definition on a stored user: a field that is left out or
    empty keeps its stored value. *)
Lemma update_user_first_found w user_id name bio skills :
  user_id ∈ user_ids (db w) →
  let assign u :=
    if_truthy skills User.set_skills
      (if_truthy bio User.set_bio (if_truthy name User.set_name u)) in
  ∃ user, user ∈ rows (users (db w)) ∧ User.id user = user_id ∧
    update_user_first user_id name bio skills w =
      (Ok (assign user),
       with_db (λ d, set_users (update_rows User.id user_id assign (users d)) d) w).
Proof.
  intros Hin assign.
  destruct (row_with_id User.id _ _ Hin) as (user & Hfirst & Hid & Huser).
  exists user. split; [done|]. split; [done|].
  unfold update_user_first. run_handler. rewrite Hfirst. by rewrite Hid.
Qed.

Lemma update_user_first_none_is_read w user_id :
  user_id ∈ user_ids (db w) →
  ∃ user, user ∈ rows (users (db w)) ∧
    result (update_user_first user_id None None None w) = Ok user ∧
    rows (users (db (world_after (update_user_first user_id None None None w)))) =
      rows (users (db w)).
Proof.
  intros Hin.
  destruct (update_user_first_found w user_id None None None Hin)
    as (user & Huser & Hid & ->).
  exists user. split; [done|]. split; [done|].
  unfold world_after, with_db, update_rows. cbn [fst snd db users set_users rows].
  unfold if_truthy. rewrite <- (list_fmap_id (rows (users (db w)))) at 2.
  apply list_fmap_ext. intros k u Hu. by case_decide.
Qed.

(** C2. The request PUT /users/<id> is served by the first definition of
    [update_user], never by the second. On the stored user Ana (bio
    "Designer", skills "logos") a request that supplies only the name is
    accepted and leaves bio and skills as they were; the second
    definition, which overwrites all three fields, is the one the
    specification describes. *)
Theorem update_user_served_by_first_definition :
  dispatch PUT ["users"; "1"] =
    Matched Endpoint.update_user_first [("user_id", "1")] ∧
  (∀ m path ps, dispatch m path ≠ Matched Endpoint.update_user_second ps) ∧
  rows (users (db demo)) =
    [User.mk 1 "Ana" "ana@x.com" "freelancer" (Some "Designer") (Some "logos") 0 None] ∧
  result (update_user_first 1 (Some "Ana B.") None None demo) =
    Ok (User.mk 1 "Ana B." "ana@x.com" "freelancer" (Some "Designer")
          (Some "logos") 0 None) ∧
  rows (users (db (world_after (update_user_first 1 (Some "Ana B.") None None demo)))) =
    [User.mk 1 "Ana B." "ana@x.com" "freelancer" (Some "Designer") (Some "logos") 0 None] ∧
  rows (users (db (world_after (update_user_first 1 (Some "") (Some "") (Some "") demo)))) =
    rows (users (db demo)) ∧
  rows (users (db (world_after (update_user_second 1 "Ana B." "Painter" "oils" demo)))) =
    [User.mk 1 "Ana B." "ana@x.com" "freelancer" (Some "Painter") (Some "oils") 0 None].
Proof.
  split; [by apply update_user_route|].
  split; [apply update_user_second_shadowed|].
  vm_compute. repeat split; reflexivity.
Qed.

(** ** Gig Delete *)

Lemma filter_all_in {A} (P : A → Prop) `{∀ x, Decision (P x)} (l : list A) :
  (∀ x, x ∈ l → P x) → filter P l = l.
Proof.
  induction l as [|x l IH]; intros HP; [done|].
  rewrite filter_cons_True by (apply HP; left).
  f_equal. apply IH. intros y Hy. apply HP. by right.
Qed.

(** With distinct ids, deleting by id takes out one row and keeps the
    others in place. *)
Lemma delete_rows_split {A} (id : A → Z) (t : Table A) (r : A) :
  r ∈ rows t → NoDup (id <$> rows t) →
  ∃ l1 l2, rows t = l1 ++ r :: l2 ∧
           rows (delete_rows id (id r) t) = l1 ++ l2.
Proof.
  intros (l1 & l2 & Hsplit)%list_elem_of_split Hnd.
  exists l1, l2. split; [done|].
  unfold delete_rows. simpl. rewrite Hsplit in Hnd |- *.
  rewrite fmap_app, fmap_cons in Hnd.
  apply NoDup_app in Hnd as (_ & Hl1 & Hnd2).
  apply NoDup_cons in Hnd2 as [Hl2 _].
  rewrite filter_app, filter_cons_False by (intros Hne; by apply Hne).
  f_equal; apply filter_all_in; intros x Hx Heq.
  - apply (Hl1 (id x)); [by apply list_elem_of_fmap_2|]. rewrite Heq. left.
  - apply Hl2. rewrite <- Heq. by apply list_elem_of_fmap_2.
Qed.

Lemma delete_rows_id_gone {A} (id : A → Z) (i : Z) (t : Table A) :
  i ∉ id <$> rows (delete_rows id i t).
Proof.
  unfold delete_rows. simpl. intros (r & -> & Hr)%list_elem_of_fmap.
  by apply list_elem_of_filter in Hr as [Hne _].
Qed.

Lemma delete_gig_found w gig_id :
  gig_id ∈ Gig.id <$> rows (gigs (db w)) →
  delete_gig gig_id w =
    (Ok "Gig deleted",
     with_db (λ d, set_gigs (delete_rows Gig.id gig_id (gigs d)) d) w).
Proof.
  intros Hin. destruct (row_with_id Gig.id _ _ Hin) as (gig & Hfirst & Hid & Hgig).
  unfold delete_gig. run_handler. rewrite Hfirst. by rewrite Hid.
Qed.

Lemma get_image_fs filename w w' :
  fs w' = fs w → result (get_image filename w') = result (get_image filename w).
Proof.
  intros Hfs. unfold get_image, result. run_handler. rewrite Hfs.
  by destruct (fs w !! upload_path filename).
Qed.

(** C5, as the code has it. Gig Delete on a stored gig succeeds and
    removes exactly that gig's row: the rows with another id stay, in
    order, and with distinct ids (the primary key) the table is the old
    one with that one row taken out; the other tables and the uploads
    directory are as they were. Afterwards a lookup of the same id
    finds nothing, so Gig Update and Gig Delete of that id raise 404 -
    the API has no Gig get-by-id -, ListByFreelancer of the owner no
    longer contains the gig, and GetImage answers for every file name
    as it did before: the gig's image file is still served. *)
Theorem delete_gig_removes_row w gig :
  gig ∈ rows (gigs (db w)) →
  let w' := world_after (delete_gig (Gig.id gig) w) in
  result (delete_gig (Gig.id gig) w) = Ok "Gig deleted" ∧
  rows (gigs (db w')) =
    filter (λ g, Gig.id g ≠ Gig.id gig) (rows (gigs (db w))) ∧
  (NoDup (Gig.id <$> rows (gigs (db w))) →
   ∃ l1 l2, rows (gigs (db w)) = l1 ++ gig :: l2 ∧
            rows (gigs (db w')) = l1 ++ l2) ∧
  db w' = set_gigs (gigs (db w')) (db w) ∧
  (Gig.id gig ∉ Gig.id <$> rows (gigs (db w'))) ∧
  (∀ title category price,
     update_gig (Gig.id gig) title category price w' =
       (Raise (NotFound "Gig not found"), w')) ∧
  delete_gig (Gig.id gig) w' = (Raise (NotFound "Gig not found"), w') ∧
  (∃ l, get_gigs_by_freelancer (Gig.user_id gig) w' = (Ok l, w') ∧
        (Gig.id gig ∉ Gig.id <$> l)) ∧
  fs w' = fs w ∧
  (∀ filename,
     result (get_image filename w') = result (get_image filename w)) ∧
  (∀ filename content,
     Gig.image_path gig = upload_path filename →
     fs w !! Gig.image_path gig = Some content →
     get_image filename w' = (Ok content, w')).
Proof.
  intros Hgig w'.
  assert (Gig.id gig ∈ Gig.id <$> rows (gigs (db w))) as Hin
    by (by apply list_elem_of_fmap_2).
  pose proof (delete_gig_found w (Gig.id gig) Hin) as Hrun.
  assert (Gig.id gig ∉ Gig.id <$> rows (gigs (db w'))) as Hgone.
  { subst w'. rewrite Hrun. apply delete_rows_id_gone. }
  assert (fs w' = fs w) as Hfs by (subst w'; by rewrite Hrun).
  split; [by rewrite Hrun|].
  split; [subst w'; by rewrite Hrun|].
  split; [intros Hnd; subst w'; rewrite Hrun; by apply delete_rows_split|].
  split; [subst w'; by rewrite Hrun|].
  split; [done|].
  split; [intros; by apply update_gig_missing|].
  split; [by apply delete_gig_missing|].
  split.
  { eexists. split; [reflexivity|]. unfold all.
    intros (g & Hid & Hg)%list_elem_of_fmap.
    apply list_elem_of_filter in Hg as [_ Hg].
    apply Hgone. rewrite Hid. by apply list_elem_of_fmap_2. }
  split; [done|].
  split; [intros; by apply get_image_fs|].
  intros filename content Hpath Hfile.
  unfold get_image. run_handler. by rewrite Hfs, <- Hpath, Hfile.
Qed.

Lemma delete_gig_removes_row_witness :
  logo_gig ∈ rows (gigs (db demo)) ∧
  result (delete_gig 1 demo) = Ok "Gig deleted" ∧
  rows (gigs (db (world_after (delete_gig 1 demo)))) = [] ∧
  get_gigs_by_freelancer 1 (world_after (delete_gig 1 demo)) =
    (Ok [], world_after (delete_gig 1 demo)) ∧
  get_image "logo.png" (world_after (delete_gig 1 demo)) =
    (Ok png, world_after (delete_gig 1 demo)).
Proof.
  assert (logo_gig ∈ rows (gigs (db demo))) as Hin by (vm_compute; left).
  destruct (delete_gig_removes_row demo logo_gig Hin)
    as (Hres & Hrows & _ & _ & _ & _ & _ & _ & _ & _ & Himg).
  split; [exact Hin|]. split; [exact Hres|]. split; [exact Hrows|].
  split; [vm_compute; reflexivity|].
  exact (Himg "logo.png" png eq_refl eq_refl).
Defined.

(** C5 as the specification states it fails on the Get-by-id: after the
    delete, GET /gigs/1 is not served by any handler and the router
    answers 405 Method Not Allowed, not 404. *)
Lemma gig_get_by_id_not_served :
  result (delete_gig 1 demo) = Ok "Gig deleted" ∧
  dispatch GET ["gigs"; "1"] = MethodNotAllowed ∧
  router_status (dispatch GET ["gigs"; "1"]) = Some 405.
Proof. vm_compute. repeat split; reflexivity. Qed.

(** ** The invariant holds in every reachable world *)

Lemma ids_ok_empty {A} (id : A → Z) : ids_ok id empty_table.
Proof. split; simpl; [constructor|]. intros r Hr. by apply elem_of_nil in Hr. Qed.

Lemma ids_ok_insert {A} (id : A → Z) (new : Z → A) (t : Table A) :
  (∀ i, id (new i) = i) → ids_ok id t → ids_ok id (insert_row new t).
Proof.
  intros Hnew [Hnd Hle]. unfold insert_row, nextval. split; simpl.
  - rewrite fmap_app. apply NoDup_app. split; [done|]. split.
    + intros i (r & -> & Hr)%list_elem_of_fmap Hi. simpl in Hi.
      apply list_elem_of_singleton in Hi. rewrite Hnew in Hi.
      specialize (Hle r Hr). lia.
    + apply NoDup_singleton.
  - intros r [Hr| ->%list_elem_of_singleton]%elem_of_app.
    + specialize (Hle r Hr). lia.
    + by rewrite Hnew.
Qed.

Lemma ids_ok_reject {A} (id : A → Z) (t : Table A) :
  ids_ok id t → ids_ok id (reject_row t).
Proof.
  intros [Hnd Hle]. unfold reject_row, nextval. split; simpl; [done|].
  intros r Hr. specialize (Hle r Hr). lia.
Qed.

Lemma update_rows_fmap {A B} (g : A → B) (id : A → Z) (i : Z) (f : A → A)
    (t : Table A) :
  (∀ r, g (f r) = g r) →
  g <$> rows (update_rows id i f t) = g <$> rows t.
Proof.
  intros Hg. unfold update_rows. simpl. rewrite <- list_fmap_compose.
  apply list_fmap_ext. intros k r _. simpl. by case_decide.
Qed.

Lemma update_rows_elem_of {A} (id : A → Z) (i : Z) (f : A → A) (t : Table A) r' :
  r' ∈ rows (update_rows id i f t) →
  ∃ r, r ∈ rows t ∧ (r' = r ∨ r' = f r).
Proof.
  unfold update_rows. simpl. intros (r & -> & Hr)%list_elem_of_fmap.
  exists r. split; [done|]. case_decide; auto.
Qed.

Lemma ids_ok_update {A} (id : A → Z) (i : Z) (f : A → A) (t : Table A) :
  (∀ r, id (f r) = id r) → ids_ok id t → ids_ok id (update_rows id i f t).
Proof.
  intros Hid [Hnd Hle]. split.
  - by rewrite update_rows_fmap.
  - intros r' (r & Hr & [-> | ->])%update_rows_elem_of; simpl.
    + by apply Hle.
    + rewrite Hid. by apply Hle.
Qed.

Lemma delete_rows_elem_of {A} (id : A → Z) (i : Z) (t : Table A) r :
  r ∈ rows (delete_rows id i t) → r ∈ rows t.
Proof. unfold delete_rows. simpl. by intros [_ Hr]%list_elem_of_filter. Qed.

Lemma ids_ok_delete {A} (id : A → Z) (i : Z) (t : Table A) :
  ids_ok id t → ids_ok id (delete_rows id i t).
Proof.
  intros [Hnd Hle]. split.
  - unfold delete_rows. simpl. eapply sublist_NoDup; [exact Hnd|].
    apply fmap_sublist, sublist_filter.
  - intros r Hr%delete_rows_elem_of. by apply Hle.
Qed.

Lemma Inv_initial : Inv initial.
Proof.
  split; unfold enrollment_pairs; simpl;
    try apply ids_ok_empty; try apply NoDup_nil_2;
    intros x Hx; by apply elem_of_nil in Hx.
Qed.

(** Taking the invariant apart, and putting it together again for a
    world in which one table or the directory has changed. *)
Ltac inv_start :=
  intros [Hus Hgs Hjs Has Hcs Hes Hks Hem Hgo Hjb Har Her Hep Hgi];
  unfold world_after, with_db, user_ids, job_ids, course_ids, enrollment_pairs in *.

Lemma Inv_write_file w path content :
  Inv w → Inv (mkWorld (db w) (<[path := content]> (fs w))).
Proof.
  inv_start. split; try assumption. simpl.
  intros g Hg. destruct (Hgi g Hg) as (filename & Hpath & Hfile).
  exists filename. split; [done|]. apply lookup_insert_is_Some'. by right.
Qed.

Lemma Inv_create_user w name email role :
  Inv w → Inv (world_after (create_user name email role w)).
Proof.
  inv_start. unfold create_user, add_commit_refresh.
  destruct (user_accepted _ _) eqn:Hacc; simpl.
  - apply bool_decide_eq_true in Hacc. simpl in Hacc.
    split; unfold user_ids, job_ids, course_ids, enrollment_pairs; simpl; try assumption.
    + by apply ids_ok_insert.
    + rewrite fmap_app. apply NoDup_app. split; [done|]. split; [|apply NoDup_singleton].
      intros e He ->%list_elem_of_singleton. done.
    + intros g Hg. rewrite fmap_app. apply elem_of_app. left. by apply Hgo.
    + intros j Hj. rewrite fmap_app. apply elem_of_app. left. by apply Hjb.
    + intros a Ha. destruct (Har a Ha). split; [done|].
      rewrite fmap_app. apply elem_of_app. by left.
    + intros e He. destruct (Her e He). split; [|done].
      rewrite fmap_app. apply elem_of_app. by left.
  - split; unfold user_ids, job_ids, course_ids, enrollment_pairs; simpl; try assumption.
    by apply ids_ok_reject.
Qed.

Ltac inv_fields :=
  split; unfold user_ids, job_ids, course_ids, enrollment_pairs in *;
  simpl; try assumption.

Lemma Inv_create_gig w title description category price revisions delivery
    user_id filename image :
  Inv w →
  Inv (world_after (create_gig title description category price revisions
                      delivery user_id filename image w)).
Proof.
  intros HInv.
  apply (Inv_write_file w (upload_path filename) image) in HInv.
  revert HInv. unfold create_gig. run_handler.
  set (w0 := mkWorld (db w) (<[upload_path filename := image]> (fs w))).
  assert (is_Some (fs w0 !! upload_path filename)) as Hfile
    by (apply lookup_insert_is_Some'; by left).
  clearbody w0. inv_start. unfold add_commit_refresh.
  destruct (gig_accepted _ _) eqn:Hacc; simpl.
  - apply bool_decide_eq_true in Hacc. simpl in Hacc. inv_fields.
    + by apply ids_ok_insert.
    + intros g [Hg| ->%list_elem_of_singleton]%elem_of_app; [by apply Hgo|done].
    + intros g [Hg| ->%list_elem_of_singleton]%elem_of_app; [by apply Hgi|].
      by exists filename.
  - inv_fields. by apply ids_ok_reject.
Qed.

Lemma Inv_post_job w title description category budget_type deadline skills buyer_id :
  Inv w →
  Inv (world_after (post_job title description category budget_type deadline
                      skills buyer_id w)).
Proof.
  inv_start. unfold post_job, add_commit_refresh.
  destruct (job_accepted _ _) eqn:Hacc; simpl.
  - apply bool_decide_eq_true in Hacc. simpl in Hacc. inv_fields.
    + by apply ids_ok_insert.
    + intros j [Hj| ->%list_elem_of_singleton]%elem_of_app; [by apply Hjb|done].
    + intros a Ha. destruct (Har a Ha). split; [|done].
      rewrite fmap_app. apply elem_of_app. by left.
  - inv_fields. by apply ids_ok_reject.
Qed.

Lemma Inv_apply_to_job w job_id freelancer_id message :
  Inv w → Inv (world_after (apply_to_job job_id freelancer_id message w)).
Proof.
  inv_start. unfold apply_to_job, add_commit_refresh.
  destruct (application_accepted _ _) eqn:Hacc; simpl.
  - apply andb_true_iff in Hacc as [Hj Hu].
    apply bool_decide_eq_true in Hj, Hu. simpl in Hj, Hu. inv_fields.
    + by apply ids_ok_insert.
    + intros a [Ha| ->%list_elem_of_singleton]%elem_of_app; [by apply Har|done].
  - inv_fields. by apply ids_ok_reject.
Qed.

Lemma Inv_create_course w title instructor description category price image :
  Inv w →
  Inv (world_after (create_course title instructor description category price
                      image w)).
Proof.
  intros HInv.
  assert (∀ thumbnail w0, Inv w0 →
            Inv (world_after
                   (add_commit_refresh courses set_courses unconstrained
                      (λ i, Course.mk i title instructor description category
                              price thumbnail) w0))) as Hadd.
  { intros thumbnail w0. inv_start. unfold add_commit_refresh. simpl. inv_fields.
    - by apply ids_ok_insert.
    - intros e He. destruct (Her e He). split; [done|].
      rewrite fmap_app. apply elem_of_app. by left. }
  destruct image as [[filename content]|].
  - apply (Hadd (Some (upload_path filename))
             (mkWorld (db w) (<[upload_path filename := content]> (fs w)))).
    by apply Inv_write_file.
  - by apply (Hadd None w).
Qed.

Lemma Inv_enroll_in_course w now user_id course_id :
  Inv w → Inv (world_after (enroll_in_course now user_id course_id w)).
Proof.
  intros HInv. destruct (decide (enrolled user_id course_id w)) as [Hen|Hne].
  { by rewrite enroll_in_course_conflict. }
  rewrite enroll_in_course_new by done. cbv zeta.
  revert HInv Hne. unfold enrolled. inv_start. intros Hne.
  destruct (enrollment_accepted _ _) eqn:Hacc; simpl.
  - apply enrollment_accepted_refs in Hacc as [Hu Hc]. simpl in Hu, Hc. inv_fields.
    + by apply ids_ok_insert.
    + intros e [He| ->%list_elem_of_singleton]%elem_of_app; [by apply Her|done].
    + rewrite fmap_app. apply NoDup_app. split; [done|].
      split; [|apply NoDup_singleton].
      intros p Hp ->%list_elem_of_singleton. done.
  - inv_fields. by apply ids_ok_reject.
Qed.

Lemma Inv_submit_contact w now name email message :
  Inv w → Inv (world_after (submit_contact now name email message w)).
Proof.
  inv_start. unfold submit_contact, add_commit_refresh. run_handler. inv_fields.
  by apply ids_ok_insert.
Qed.

Lemma fmap_update {A B} (g : A → B) (id : A → Z) (i : Z) (f : A → A) (l : list A) :
  (∀ r, g (f r) = g r) →
  g <$> ((λ r, if decide (id r = i) then f r else r) <$> l) = g <$> l.
Proof. intros Hg. by apply (update_rows_fmap g id i f (mkTable l 0)). Qed.

Lemma Inv_update_users w i (f : User.t → User.t) :
  (∀ u, User.id (f u) = User.id u) →
  (∀ u, User.email (f u) = User.email u) →
  Inv w →
  Inv (with_db (λ d, set_users (update_rows User.id i f (users d)) d) w).
Proof.
  intros Hid Hemail. inv_start. inv_fields;
    rewrite ?(fmap_update User.id), ?(fmap_update User.email) by done;
    try assumption.
  by apply ids_ok_update.
Qed.

Lemma Inv_update_gigs w i (f : Gig.t → Gig.t) :
  (∀ g, Gig.id (f g) = Gig.id g) →
  (∀ g, Gig.user_id (f g) = Gig.user_id g) →
  (∀ g, Gig.image_path (f g) = Gig.image_path g) →
  Inv w →
  Inv (with_db (λ d, set_gigs (update_rows Gig.id i f (gigs d)) d) w).
Proof.
  intros Hid Howner Himage. inv_start. inv_fields.
  - by apply ids_ok_update.
  - intros g' (g & Hg & [-> | ->])%update_rows_elem_of;
      rewrite ?Howner; by apply Hgo.
  - intros g' (g & Hg & [-> | ->])%update_rows_elem_of;
      rewrite ?Himage; by apply Hgi.
Qed.

Lemma Inv_update_jobs w i (f : Job.t → Job.t) :
  (∀ j, Job.id (f j) = Job.id j) →
  (∀ j, Job.buyer_id (f j) = Job.buyer_id j) →
  Inv w →
  Inv (with_db (λ d, set_jobs (update_rows Job.id i f (jobs d)) d) w).
Proof.
  intros Hid Hbuyer. inv_start. inv_fields;
    rewrite ?(fmap_update Job.id) by done; try assumption.
  - by apply ids_ok_update.
  - intros j' (j & Hj & [-> | ->])%update_rows_elem_of;
      rewrite ?Hbuyer; by apply Hjb.
Qed.

Lemma Inv_delete_gigs w i :
  Inv w → Inv (with_db (λ d, set_gigs (delete_rows Gig.id i (gigs d)) d) w).
Proof.
  inv_start. inv_fields.
  - by apply ids_ok_delete.
  - intros g Hg%delete_rows_elem_of. by apply Hgo.
  - intros g Hg%delete_rows_elem_of. by apply Hgi.
Qed.

Lemma if_truthy_keeps {A B} (g : A → B) (v : option string)
    (set : string → A → A) (x : A) :
  (∀ s y, g (set s y) = g y) → g (if_truthy v set x) = g x.
Proof.
  intros Hset. unfold if_truthy. destruct v as [s|]; [|done].
  by destruct (truthy (Some s)).
Qed.

Lemma Inv_update_user_first w user_id name bio skills :
  Inv w → Inv (world_after (update_user_first user_id name bio skills w)).
Proof.
  intros HInv. unfold update_user_first. run_handler.
  destruct (first _) as [user|]; [|done].
  apply (Inv_update_users w); [| |done]; intros u;
    by rewrite !if_truthy_keeps.
Qed.

Lemma Inv_update_user_second w user_id name bio skills :
  Inv w → Inv (world_after (update_user_second user_id name bio skills w)).
Proof.
  intros HInv. unfold update_user_second. run_handler.
  destruct (first _) as [user|]; [|done].
  by apply (Inv_update_users w).
Qed.

Lemma Inv_upload_profile_pic w user_id filename image :
  Inv w → Inv (world_after (upload_profile_pic user_id filename image w)).
Proof.
  intros HInv. apply (Inv_write_file w (upload_path filename) image) in HInv.
  unfold upload_profile_pic. run_handler.
  destruct (first _) as [user|]; [|done].
  by apply (Inv_update_users
              (mkWorld (db w) (<[upload_path filename := image]> (fs w)))).
Qed.

Lemma Inv_update_gig w gig_id title category price :
  Inv w → Inv (world_after (update_gig gig_id title category price w)).
Proof.
  intros HInv. unfold update_gig. run_handler.
  destruct (first _) as [gig|]; [|done].
  by apply (Inv_update_gigs w).
Qed.

Lemma Inv_delete_gig w gig_id :
  Inv w → Inv (world_after (delete_gig gig_id w)).
Proof.
  intros HInv. unfold delete_gig. run_handler.
  destruct (first _) as [gig|]; [|done].
  by apply (Inv_delete_gigs w).
Qed.

Lemma Inv_update_job w job_id title category deadline status freelancer :
  Inv w →
  Inv (world_after (update_job job_id title category deadline status freelancer w)).
Proof.
  intros HInv. unfold update_job. run_handler.
  destruct (first _) as [job|]; [|done].
  by apply (Inv_update_jobs w).
Qed.

(** The handlers that only read. *)
Lemma get_top_freelancers_reads w : world_after (get_top_freelancers w) = w.
Proof. by rewrite get_top_freelancers_entries. Qed.

Theorem run_preserves_Inv now c w : Inv w → Inv (run now c w).
Proof.
  intros HInv. destruct c; unfold run;
    first
      [ done
      | by apply Inv_create_user
      | by apply Inv_upload_profile_pic
      | by apply Inv_update_user_first
      | by apply Inv_update_user_second
      | by apply Inv_create_gig
      | by apply Inv_update_gig
      | by apply Inv_delete_gig
      | by apply Inv_post_job
      | by apply Inv_apply_to_job
      | by apply Inv_update_job
      | by apply Inv_create_course
      | by apply Inv_enroll_in_course
      | by apply Inv_submit_contact
      | by rewrite get_top_freelancers_reads
      | unfold get_user, get_user_by_email, get_image, get_course;
        run_handler; by case_match ].
Qed.

Theorem reachable_Inv w : reachable w → Inv w.
Proof.
  induction 1 as [|now c w _ IH]; [apply Inv_initial|by apply run_preserves_Inv].
Qed.

Lemma run_all_reachable now cs w : reachable w → reachable (run_all now cs w).
Proof.
  unfold run_all. revert w. induction cs as [|c cs IH]; intros w Hw; simpl; [done|].
  apply IH. by constructor.
Qed.

Lemma demo_reachable : reachable demo.
Proof. apply run_all_reachable. constructor. Qed.

(** X28. In a reachable world the image of every stored gig is on
    disk: GetImage serves it, and still serves it after the gig is
    deleted. *)
Corollary delete_gig_image_still_served w gig :
  reachable w → gig ∈ rows (gigs (db w)) →
  let w' := world_after (delete_gig (Gig.id gig) w) in
  ∃ filename content,
    Gig.image_path gig = upload_path filename ∧
    get_image filename w = (Ok content, w) ∧
    get_image filename w' = (Ok content, w').
Proof.
  intros Hreach%reachable_Inv Hgig w'.
  destruct (inv_gig_image w Hreach gig Hgig) as (filename & Hpath & [content Hfile]).
  assert (fs w' = fs w) as Hfs.
  { subst w'. unfold delete_gig. run_handler. by case_match. }
  exists filename, content. split; [done|].
  unfold get_image. run_handler. by rewrite Hfs, Hfile.
Qed.

(** X29. The data model's invariant: in a reachable world there is at
    most one enrollment per (user_id, course_id) pair. *)
Corollary enrollment_pairs_unique w : reachable w → NoDup (enrollment_pairs w).
Proof. intros Hreach%reachable_Inv. apply (inv_enrollment_pairs w Hreach). Qed.

(** ** Scenarios *)

Example dispatch_examples :
  dispatch GET ["users"; "7"] = Matched Endpoint.get_user [("user_id", "7")] ∧
  dispatch GET ["users"; ""] = Matched Endpoint.get_all_users [] ∧
  dispatch GET ["users"] = Redirect ["users"; ""] ∧
  dispatch GET ["contact"; ""] = Redirect ["contact"] ∧
  dispatch DELETE ["users"; "7"] = MethodNotAllowed ∧
  dispatch GET ["jobs"; "3"] = MethodNotAllowed ∧
  dispatch GET ["nothing"] = NoRoute ∧
  dispatch GET ["users"; "by-email"; "ana@x.com"] =
    Matched Endpoint.get_user_by_email [("email", "ana@x.com")].
Proof. vm_compute. repeat split; reflexivity. Qed.

(** Ana signs up and lists a gig; the gig is hers until it is deleted. *)
Example ana_scenario :
  let w1 := world_after (create_user "Ana" "ana@x.com" "freelancer" initial) in
  let w2 := world_after
              (create_gig "Logo design" "A logo" "Design" 50 2 3 1 "logo.png" png w1) in
  let w3 := world_after (delete_gig 1 w2) in
  User.id <$> rows (users (db w1)) = [1] ∧
  result (get_gigs_by_freelancer 1 w2) =
    Ok [Gig.mk 1 "Logo design" "A logo" "Design" 50 2 3 "uploads/logo.png" 1] ∧
  result (get_gigs_by_freelancer 1 w3) = Ok [] ∧
  result (update_gig 1 "Logo" "Design" 60 w3) = Raise (NotFound "Gig not found") ∧
  result (get_image "logo.png" w3) = Ok png ∧
  result (get_dashboard_summary w2) = Ok (Summary.mk 1 1 0).
Proof. vm_compute. repeat split; reflexivity. Qed.

(** A gig for a user that is not stored and a second account with a
    taken email are rejected by the store; the gig's image is written
    all the same, and the next user takes an id after the rejected one. *)
Example store_rejections :
  let w1 := world_after (create_user "Ana" "ana@x.com" "freelancer" initial) in
  let w2 := world_after (create_user "Bea" "ana@x.com" "buyer" w1) in
  let w3 := world_after (create_user "Bea" "bea@x.com" "buyer" w2) in
  let w4 := world_after
              (create_gig "Poster" "A poster" "Design" 20 1 2 9 "poster.png" png w3) in
  result (create_user "Bea" "ana@x.com" "buyer" w1) = Raise IntegrityError ∧
  User.id <$> rows (users (db w3)) = [1; 3] ∧
  result (create_gig "Poster" "A poster" "Design" 20 1 2 9 "poster.png" png w3) =
    Raise IntegrityError ∧
  rows (gigs (db w4)) = [] ∧
  result (get_image "poster.png" w4) = Ok png.
Proof. vm_compute. repeat split; reflexivity. Qed.

(** ** Users: create, look up, update *)

Lemma first_filter_app_new {A} (P : A → Prop) `{∀ x, Decision (P x)}
    (l : list A) (x : A) :
  (∀ y, y ∈ l → ¬ P y) → P x → first (filter P (l ++ [x])) = Some x.
Proof.
  intros Hl Hx. rewrite filter_app.
  assert (filter P l = []) as ->.
  { apply head_None. by apply (first_filter_None P l). }
  rewrite app_nil_l. by rewrite filter_cons_True.
Qed.

(** X1. User Create with an email no stored user has succeeds: the new
    user takes the next id of the sequence, carries the given name,
    email and role with bio, skills and picture unset and rating 0, and
    is appended; Get by that id and GetByEmail by that email then both
    return it, and no file has changed. *)
Theorem create_user_round_trip name email role w :
  email ∉ User.email <$> rows (users (db w)) →
  (∀ u, u ∈ rows (users (db w)) → User.id u ≤ seq (users (db w))) →
  let user := User.mk (seq (users (db w)) + 1) name email role None None 0 None in
  let w' := world_after (create_user name email role w) in
  result (create_user name email role w) = Ok user ∧
  rows (users (db w')) = rows (users (db w)) ++ [user] ∧
  get_user (User.id user) w' = (Ok user, w') ∧
  get_user_by_email email w' = (Ok user, w') ∧
  fs w' = fs w.
Proof.
  intros Hfresh Hseq user w'.
  assert (create_user name email role w =
          (Ok user,
           with_db (set_users (mkTable (rows (users (db w)) ++ [user])
                                 (seq (users (db w)) + 1))) w)) as Hrun.
  { unfold create_user, add_commit_refresh, user_accepted. simpl.
    by rewrite bool_decide_eq_true_2. }
  subst w'. rewrite Hrun. unfold result, world_after, with_db.
  cbn [fst snd db fs users set_users rows].
  split; [done|]. split; [done|]. split; [|split; [|done]].
  - unfold get_user. run_handler. rewrite first_filter_app_new; [done| |done].
    intros u Hu Hid. specialize (Hseq u Hu). simpl in Hid. lia.
  - unfold get_user_by_email. run_handler.
    rewrite first_filter_app_new; [done| |done].
    intros u Hu Hem. apply Hfresh. rewrite <- Hem. by apply list_elem_of_fmap_2.
Qed.

Lemma create_user_round_trip_witness :
  let bea := User.mk 2 "Bea" "bea@x.com" "buyer" None None 0 None in
  result (create_user "Bea" "bea@x.com" "buyer" demo) = Ok bea ∧
  get_user_by_email "bea@x.com"
    (world_after (create_user "Bea" "bea@x.com" "buyer" demo)) =
    (Ok bea, world_after (create_user "Bea" "bea@x.com" "buyer" demo)).
Proof.
  assert ("bea@x.com" ∉ User.email <$> rows (users (db demo))) as H1
    by compute_decision.
  assert (∀ u, u ∈ rows (users (db demo)) → User.id u ≤ seq (users (db demo)))
    as H2 by (apply Forall_forall; compute_decision).
  destruct (create_user_round_trip "Bea" "bea@x.com" "buyer" demo H1 H2)
    as (Hres & _ & _ & Hmail & _).
  exact (conj Hres Hmail).
Defined.

(** X2. User Create with an email some stored user already has is
    rejected by the store: the handler raises IntegrityError, not a
    400 or 404, the users are the same rows as before, and no other
    table and no file changes. *)
Theorem create_user_duplicate_email name email role w :
  email ∈ User.email <$> rows (users (db w)) →
  let w' := world_after (create_user name email role w) in
  result (create_user name email role w) = Raise IntegrityError ∧
  rows (users (db w')) = rows (users (db w)) ∧
  db w' = set_users (users (db w')) (db w) ∧
  fs w' = fs w ∧
  get_all_users w' = (Ok (rows (users (db w))), w').
Proof.
  intros Htaken w'.
  assert (create_user name email role w =
          (Raise IntegrityError,
           with_db (set_users (reject_row (users (db w)))) w)) as Hrun.
  { unfold create_user, add_commit_refresh, user_accepted. simpl.
    rewrite bool_decide_eq_false_2; [done|]. by intros Hn. }
  subst w'. by rewrite Hrun.
Qed.

Lemma create_user_duplicate_email_witness :
  ("ana@x.com" ∈ User.email <$> rows (users (db demo))) ∧
  result (create_user "Ann" "ana@x.com" "buyer" demo) = Raise IntegrityError ∧
  rows (users (db (world_after (create_user "Ann" "ana@x.com" "buyer" demo)))) =
    rows (users (db demo)).
Proof.
  assert ("ana@x.com" ∈ User.email <$> rows (users (db demo))) as H
    by compute_decision.
  destruct (create_user_duplicate_email "Ann" "ana@x.com" "buyer" demo H)
    as (Hres & Hrows & _).
  exact (conj H (conj Hres Hrows)).
Defined.

(** X3. UploadPicture for a stored user writes the image under
    uploads/<filename>, sets the picture path of that user to this path
    and returns it; the user's other fields and the other users keep
    their values, and GetImage serves the uploaded bytes. *)
Theorem upload_profile_pic_stored_user w user_id filename image :
  user_id ∈ user_ids (db w) →
  let w' := world_after (upload_profile_pic user_id filename image w) in
  result (upload_profile_pic user_id filename image w) =
    Ok ("Profile picture updated", upload_path filename) ∧
  (∀ k u, rows (users (db w)) !! k = Some u → User.id u = user_id →
     ∃ u', rows (users (db w')) !! k = Some u' ∧
       User.profile_pic u' = Some (upload_path filename) ∧
       User.id u' = User.id u ∧ User.name u' = User.name u ∧
       User.email u' = User.email u ∧ User.role u' = User.role u ∧
       User.bio u' = User.bio u ∧ User.skills u' = User.skills u ∧
       User.rating u' = User.rating u) ∧
  (∀ k u, rows (users (db w)) !! k = Some u → User.id u ≠ user_id →
     rows (users (db w')) !! k = Some u) ∧
  db w' = set_users (users (db w')) (db w) ∧
  fs w' = <[upload_path filename := image]> (fs w) ∧
  get_image filename w' = (Ok image, w').
Proof.
  intros Hin w'.
  destruct (row_with_id User.id _ _ Hin) as (user & Hfirst & Hid & Huser).
  assert (upload_profile_pic user_id filename image w =
          (Ok ("Profile picture updated", upload_path filename),
           mkWorld
             (set_users (update_rows User.id user_id
                           (User.set_profile_pic (upload_path filename))
                           (users (db w))) (db w))
             (<[upload_path filename := image]> (fs w)))) as Hrun.
  { unfold upload_profile_pic. run_handler. rewrite Hfirst. by rewrite Hid. }
  subst w'. rewrite Hrun. unfold result, world_after.
  cbn [fst snd db fs users set_users].
  split; [done|]. split; [|split; [|split; [done|split; [done|]]]].
  - intros k u Hk Hu. eexists. split; [by apply update_rows_lookup|].
    by rewrite decide_True.
  - intros k u Hk Hu. rewrite (update_rows_lookup _ _ _ _ _ _ Hk).
    by rewrite decide_False.
  - unfold get_image. run_handler. by rewrite lookup_insert_eq.
Qed.

Lemma upload_profile_pic_stored_user_witness :
  (1 ∈ user_ids (db demo)) ∧
  result (upload_profile_pic 1 "ana.jpg" jpg demo) =
    Ok ("Profile picture updated", "uploads/ana.jpg") ∧
  get_image "ana.jpg" (world_after (upload_profile_pic 1 "ana.jpg" jpg demo)) =
    (Ok jpg, world_after (upload_profile_pic 1 "ana.jpg" jpg demo)).
Proof.
  assert (1 ∈ user_ids (db demo)) as H by compute_decision.
  destruct (upload_profile_pic_stored_user demo 1 "ana.jpg" jpg H)
    as (Hres & _ & _ & _ & _ & Himg).
  exact (conj H (conj Hres Himg)).
Defined.

(** X4. The operations that take the id of a row raise NotFound only
    for an id that is not stored: on a stored id each of them succeeds,
    and Get returns a stored row that carries the id and changes
    nothing. *)
Theorem by_id_stored_succeeds (op : ByIdOp) (i : Z) (w : World) :
  i ∈ stored_ids op w →
  (run_by_id op i w).1 = None ∧
  (op = UserGet → ∃ u, get_user i w = (Ok u, w) ∧
                       u ∈ rows (users (db w)) ∧ User.id u = i) ∧
  (op = CourseGet → ∃ c, get_course i w = (Ok c, w) ∧
                         c ∈ rows (courses (db w)) ∧ Course.id c = i).
Proof.
  intros Hin. destruct op; simpl in Hin; simpl;
    (split; [|split; intros Hop; try discriminate Hop]).
  - destruct (row_with_id User.id _ _ Hin) as (u & Hfirst & _).
    unfold raised, get_user. run_handler. by rewrite Hfirst.
  - destruct (row_with_id User.id _ _ Hin) as (u & Hfirst & Hid & Hu).
    exists u. unfold get_user. run_handler. by rewrite Hfirst.
  - destruct (row_with_id Course.id _ _ Hin) as (c & Hfirst & _).
    unfold raised, get_course. run_handler. by rewrite Hfirst.
  - destruct (row_with_id Course.id _ _ Hin) as (c & Hfirst & Hid & Hc).
    exists c. unfold get_course. run_handler. by rewrite Hfirst.
  - destruct (row_with_id User.id _ _ Hin) as (u & Hfirst & _).
    unfold raised, update_user_first. run_handler. by rewrite Hfirst.
  - destruct (row_with_id User.id _ _ Hin) as (u & Hfirst & _).
    unfold raised, update_user_second. run_handler. by rewrite Hfirst.
  - destruct (row_with_id Gig.id _ _ Hin) as (g & Hfirst & _).
    unfold raised, update_gig. run_handler. by rewrite Hfirst.
  - destruct (row_with_id Job.id _ _ Hin) as (j & Hfirst & _).
    unfold raised, update_job. run_handler. by rewrite Hfirst.
  - destruct (row_with_id Gig.id _ _ Hin) as (g & Hfirst & _).
    unfold raised, delete_gig. run_handler. by rewrite Hfirst.
Qed.

Lemma by_id_stored_succeeds_witness :
  (2 ∈ stored_ids CourseGet demo) ∧
  (run_by_id CourseGet 2 demo).1 = None ∧
  ∃ c, get_course 2 demo = (Ok c, demo) ∧ Course.id c = 2.
Proof.
  assert (2 ∈ stored_ids CourseGet demo) as H by compute_decision.
  destruct (by_id_stored_succeeds CourseGet 2 demo H) as (Hok & _ & Hget).
  destruct (Hget eq_refl) as (c & Hrun & _ & Hid).
  exact (conj H (conj Hok (ex_intro _ c (conj Hrun Hid)))).
Defined.

(** The row [filter(..).first()] loads is the first match in table order. *)
Lemma first_filter_split {A} (P : A → Prop) `{∀ x, Decision (P x)}
    (l : list A) (x : A) :
  first (filter P l) = Some x →
  ∃ l1 l2, l = l1 ++ x :: l2 ∧ P x ∧ ∀ y, y ∈ l1 → ¬ P y.
Proof.
  unfold first. induction l as [|a l IH]; intros Hhd; [done|].
  rewrite filter_cons in Hhd. destruct (decide (P a)) as [Ha|Ha].
  - simpl in Hhd. simplify_eq. exists [], l. split; [done|]. split; [done|].
    intros y Hy. by apply elem_of_nil in Hy.
  - destruct (IH Hhd) as (l1 & l2 & -> & Hx & Hl1).
    exists (a :: l1), l2. split; [done|]. split; [done|].
    intros y [->|Hy]%elem_of_cons; [done|by apply Hl1].
Qed.

(** X5. GetByEmail raises NotFound exactly when no stored user has the
    email; otherwise it returns a stored user with that email, the
    first in table order. Either way the world is left as it was. *)
Theorem get_user_by_email_lookup email w :
  world_after (get_user_by_email email w) = w ∧
  (result (get_user_by_email email w) = Raise (NotFound "User not found") ↔
   email ∉ User.email <$> rows (users (db w))) ∧
  (email ∈ User.email <$> rows (users (db w)) →
   ∃ u l1 l2, result (get_user_by_email email w) = Ok u ∧
     User.email u = email ∧
     rows (users (db w)) = l1 ++ u :: l2 ∧
     ∀ u', u' ∈ l1 → User.email u' ≠ email).
Proof.
  unfold get_user_by_email, result, world_after. run_handler.
  destruct (first _) as [u|] eqn:Hfirst; simpl.
  - destruct (first_filter_split _ _ _ Hfirst) as (l1 & l2 & Hsplit & Hem & Hl1).
    split; [done|]. split.
    + split; [done|]. intros Hni. destruct Hni. rewrite <- Hem, Hsplit.
      apply list_elem_of_fmap_2, elem_of_app. right. left.
    + intros _. by exists u, l1, l2.
  - split; [done|].
    pose proof (proj1 (first_filter_None _ _) Hfirst) as Hno.
    assert (email ∉ User.email <$> rows (users (db w))) as Hni.
    { intros (u & -> & Hu)%list_elem_of_fmap. by apply (Hno u Hu). }
    split; [done|]. by intros Hin.
Qed.

Lemma get_user_by_email_lookup_witness :
  ("ana@x.com" ∈ User.email <$> rows (users (db demo))) ∧
  ∃ u, result (get_user_by_email "ana@x.com" demo) = Ok u ∧
       User.email u = "ana@x.com".
Proof.
  assert ("ana@x.com" ∈ User.email <$> rows (users (db demo))) as H
    by compute_decision.
  destruct (get_user_by_email_lookup "ana@x.com" demo) as (_ & _ & Hfound).
  destruct (Hfound H) as (u & _ & _ & Hres & Hem & _).
  exact (conj H (ex_intro _ u (conj Hres Hem))).
Defined.

(** X6. The first [update_user], the one PUT /users/<id> reaches, on a
    stored user: a field that is supplied and not empty replaces the
    stored value; a field that is left out or empty keeps it. Id,
    email, role, rating and picture are never touched, the other users
    keep their rows and no file changes. *)
Theorem update_user_first_partial w user_id name bio skills :
  user_id ∈ user_ids (db w) →
  let w' := world_after (update_user_first user_id name bio skills w) in
  (∀ k u, rows (users (db w)) !! k = Some u → User.id u = user_id →
     ∃ u', rows (users (db w')) !! k = Some u' ∧
       User.name u' = py_or name (User.name u) ∧
       User.bio u' = (if truthy bio then bio else User.bio u) ∧
       User.skills u' = (if truthy skills then skills else User.skills u) ∧
       User.id u' = User.id u ∧ User.email u' = User.email u ∧
       User.role u' = User.role u ∧ User.rating u' = User.rating u ∧
       User.profile_pic u' = User.profile_pic u) ∧
  (∀ k u, rows (users (db w)) !! k = Some u → User.id u ≠ user_id →
     rows (users (db w')) !! k = Some u) ∧
  (∃ u, result (update_user_first user_id name bio skills w) = Ok u ∧
        User.id u = user_id) ∧
  db w' = set_users (users (db w')) (db w) ∧
  fs w' = fs w.
Proof.
  intros Hin w'.
  destruct (update_user_first_found w user_id name bio skills Hin)
    as (user & Huser & Hid & Hrun).
  subst w'. rewrite Hrun. unfold result, world_after, with_db.
  cbn [fst snd db fs users set_users].
  split; [|split; [|split; [|done]]].
  - intros k u Hk Hu. eexists. split; [by apply update_rows_lookup|].
    rewrite decide_True by done. unfold if_truthy, py_or, truthy.
    destruct name as [n|], bio as [b|], skills as [s|];
      repeat case_bool_decide; done.
  - intros k u Hk Hu. rewrite (update_rows_lookup _ _ _ _ _ _ Hk).
    by rewrite decide_False.
  - eexists. split; [done|]. by rewrite !if_truthy_keeps.
Qed.

Lemma update_user_first_partial_witness :
  (1 ∈ user_ids (db demo)) ∧
  ∃ u', rows (users (db (world_after
                  (update_user_first 1 (Some "") None (Some "posters") demo))))
          !! 0%nat = Some u' ∧
        User.name u' = "Ana" ∧ User.bio u' = Some "Designer" ∧
        User.skills u' = Some "posters".
Proof.
  assert (1 ∈ user_ids (db demo)) as H by compute_decision.
  destruct (update_user_first_partial demo 1 (Some "") None (Some "posters") H)
    as (Hrow & _).
  destruct (Hrow 0%nat
              (User.mk 1 "Ana" "ana@x.com" "freelancer" (Some "Designer")
                 (Some "logos") 0 None) eq_refl eq_refl)
    as (u' & Hk & Hn & Hb & Hs & _).
  exact (conj H (ex_intro _ u' (conj Hk (conj Hn (conj Hb Hs))))).
Defined.

(** X7. The second [update_user] on a stored user overwrites name, bio
    and skills with the supplied strings, empty ones included, and
    keeps id, email, role, rating and picture; the other users keep
    their rows and no file changes. *)
Theorem update_user_second_overwrites w user_id name bio skills :
  user_id ∈ user_ids (db w) →
  let w' := world_after (update_user_second user_id name bio skills w) in
  (∀ k u, rows (users (db w)) !! k = Some u → User.id u = user_id →
     ∃ u', rows (users (db w')) !! k = Some u' ∧
       User.name u' = name ∧ User.bio u' = Some bio ∧
       User.skills u' = Some skills ∧
       User.id u' = User.id u ∧ User.email u' = User.email u ∧
       User.role u' = User.role u ∧ User.rating u' = User.rating u ∧
       User.profile_pic u' = User.profile_pic u) ∧
  (∀ k u, rows (users (db w)) !! k = Some u → User.id u ≠ user_id →
     rows (users (db w')) !! k = Some u) ∧
  (∃ u, result (update_user_second user_id name bio skills w) = Ok u ∧
        User.id u = user_id ∧ User.name u = name ∧
        User.bio u = Some bio ∧ User.skills u = Some skills) ∧
  db w' = set_users (users (db w')) (db w) ∧
  fs w' = fs w.
Proof.
  intros Hin w'.
  destruct (update_user_second_found w user_id name bio skills Hin)
    as (user & Huser & Hid & Hrun).
  subst w'. rewrite Hrun. unfold result, world_after, with_db.
  cbn [fst snd db fs users set_users].
  split; [|split; [|split; [|done]]].
  - intros k u Hk Hu. eexists. split; [by apply update_rows_lookup|].
    by rewrite decide_True.
  - intros k u Hk Hu. rewrite (update_rows_lookup _ _ _ _ _ _ Hk).
    by rewrite decide_False.
  - by eexists.
Qed.

Lemma update_user_second_overwrites_witness :
  (1 ∈ user_ids (db demo)) ∧
  ∃ u, result (update_user_second 1 "Ana B." "" "oils" demo) = Ok u ∧
       User.name u = "Ana B." ∧ User.bio u = Some "" ∧
       User.skills u = Some "oils".
Proof.
  assert (1 ∈ user_ids (db demo)) as H by compute_decision.
  destruct (update_user_second_overwrites demo 1 "Ana B." "" "oils" H)
    as (_ & _ & (u & Hres & _ & Hn & Hb & Hs) & _).
  exact (conj H (ex_intro _ u (conj Hres (conj Hn (conj Hb Hs))))).
Defined.

(** ** Gigs: create, list, update *)

(** X8. Gig Create for a stored user writes the image under
    uploads/<filename> and appends one gig with the next id, the given
    fields, that path and that owner; ListByFreelancer of the owner
    then ends with the new gig and GetImage serves its image. No other
    table changes. *)
Theorem create_gig_round_trip w title description category price revisions
    delivery user_id filename image :
  user_id ∈ user_ids (db w) →
  let gig := Gig.mk (seq (gigs (db w)) + 1) title description category price
               revisions delivery (upload_path filename) user_id in
  let w' := world_after (create_gig title description category price revisions
                           delivery user_id filename image w) in
  result (create_gig title description category price revisions delivery
            user_id filename image w) = Ok gig ∧
  rows (gigs (db w')) = rows (gigs (db w)) ++ [gig] ∧
  db w' = set_gigs (gigs (db w')) (db w) ∧
  fs w' = <[upload_path filename := image]> (fs w) ∧
  (∃ l, get_gigs_by_freelancer user_id w' = (Ok l, w') ∧ last l = Some gig) ∧
  get_image filename w' = (Ok image, w').
Proof.
  intros Hin gig w'.
  assert (create_gig title description category price revisions delivery
            user_id filename image w =
          (Ok gig,
           mkWorld (set_gigs (mkTable (rows (gigs (db w)) ++ [gig])
                                (seq (gigs (db w)) + 1)) (db w))
                   (<[upload_path filename := image]> (fs w)))) as Hrun.
  { unfold create_gig. run_handler. unfold add_commit_refresh, gig_accepted.
    simpl. by rewrite bool_decide_eq_true_2. }
  subst w'. rewrite Hrun. unfold result, world_after.
  cbn [fst snd db fs gigs set_gigs rows].
  split; [done|]. split; [done|]. split; [done|]. split; [done|]. split.
  - eexists. split; [reflexivity|]. unfold all. cbn [db gigs set_gigs rows].
    rewrite filter_app, filter_cons_True, filter_nil by done. by rewrite last_snoc.
  - unfold get_image. run_handler. by rewrite lookup_insert_eq.
Qed.

Lemma create_gig_round_trip_witness :
  (1 ∈ user_ids (db demo)) ∧
  result (create_gig "Flyer" "A flyer" "Print" 15 1 2 1 "flyer.png" png demo) =
    Ok (Gig.mk 2 "Flyer" "A flyer" "Print" 15 1 2 "uploads/flyer.png" 1) ∧
  get_image "flyer.png"
    (world_after (create_gig "Flyer" "A flyer" "Print" 15 1 2 1 "flyer.png" png demo)) =
    (Ok png,
     world_after (create_gig "Flyer" "A flyer" "Print" 15 1 2 1 "flyer.png" png demo)).
Proof.
  assert (1 ∈ user_ids (db demo)) as H by compute_decision.
  destruct (create_gig_round_trip demo "Flyer" "A flyer" "Print" 15 1 2 1
              "flyer.png" png H) as (Hres & _ & _ & _ & _ & Himg).
  exact (conj H (conj Hres Himg)).
Defined.

(** X9. Gig Create for a user_id that is no stored user is rejected by
    the store with IntegrityError and adds no gig, but the image has
    been written by then: the file stays under uploads/<filename>,
    replacing what was there, and GetImage serves it. *)
Theorem create_gig_unknown_user w title description category price revisions
    delivery user_id filename image :
  user_id ∉ user_ids (db w) →
  let w' := world_after (create_gig title description category price revisions
                           delivery user_id filename image w) in
  result (create_gig title description category price revisions delivery
            user_id filename image w) = Raise IntegrityError ∧
  rows (gigs (db w')) = rows (gigs (db w)) ∧
  db w' = set_gigs (gigs (db w')) (db w) ∧
  fs w' = <[upload_path filename := image]> (fs w) ∧
  get_image filename w' = (Ok image, w').
Proof.
  intros Hni w'.
  assert (create_gig title description category price revisions delivery
            user_id filename image w =
          (Raise IntegrityError,
           mkWorld (set_gigs (reject_row (gigs (db w))) (db w))
                   (<[upload_path filename := image]> (fs w)))) as Hrun.
  { unfold create_gig. run_handler. unfold add_commit_refresh, gig_accepted.
    simpl. by rewrite bool_decide_eq_false_2. }
  subst w'. rewrite Hrun. unfold result, world_after.
  cbn [fst snd db fs gigs set_gigs rows reject_row].
  repeat (split; [done|]).
  unfold get_image. run_handler. by rewrite lookup_insert_eq.
Qed.

Lemma create_gig_unknown_user_witness :
  (9 ∉ user_ids (db demo)) ∧
  result (create_gig "Flyer" "A flyer" "Print" 15 1 2 9 "logo.png" jpg demo) =
    Raise IntegrityError ∧
  get_image "logo.png"
    (world_after (create_gig "Flyer" "A flyer" "Print" 15 1 2 9 "logo.png" jpg demo)) =
    (Ok jpg,
     world_after (create_gig "Flyer" "A flyer" "Print" 15 1 2 9 "logo.png" jpg demo)).
Proof.
  assert (9 ∉ user_ids (db demo)) as H by compute_decision.
  destruct (create_gig_unknown_user demo "Flyer" "A flyer" "Print" 15 1 2 9
              "logo.png" jpg H) as (Hres & _ & _ & _ & Himg).
  exact (conj H (conj Hres Himg)).
Defined.

(** X10. Gig Update on a stored gig overwrites title, category and
    price with the supplied values and keeps the gig's id, description,
    revisions, delivery, image path and owner; every other gig keeps
    its row, and no other table and no file changes. *)
Theorem update_gig_overwrites w gig_id title category price :
  gig_id ∈ Gig.id <$> rows (gigs (db w)) →
  let w' := world_after (update_gig gig_id title category price w) in
  (∀ k g, rows (gigs (db w)) !! k = Some g → Gig.id g = gig_id →
     ∃ g', rows (gigs (db w')) !! k = Some g' ∧
       Gig.title g' = title ∧ Gig.category g' = category ∧
       Gig.price g' = price ∧
       Gig.id g' = Gig.id g ∧ Gig.description g' = Gig.description g ∧
       Gig.revisions g' = Gig.revisions g ∧ Gig.delivery g' = Gig.delivery g ∧
       Gig.image_path g' = Gig.image_path g ∧ Gig.user_id g' = Gig.user_id g) ∧
  (∀ k g, rows (gigs (db w)) !! k = Some g → Gig.id g ≠ gig_id →
     rows (gigs (db w')) !! k = Some g) ∧
  (∃ g, result (update_gig gig_id title category price w) = Ok g ∧
        Gig.id g = gig_id ∧ Gig.title g = title ∧
        Gig.category g = category ∧ Gig.price g = price) ∧
  db w' = set_gigs (gigs (db w')) (db w) ∧
  fs w' = fs w.
Proof.
  intros Hin w'.
  destruct (row_with_id Gig.id _ _ Hin) as (gig & Hfirst & Hid & Hgig).
  assert (update_gig gig_id title category price w =
          (Ok (Gig.set_price price
                 (Gig.set_category category (Gig.set_title title gig))),
           with_db (λ d, set_gigs
                      (update_rows Gig.id gig_id
                         (λ g, Gig.set_price price
                                 (Gig.set_category category
                                    (Gig.set_title title g)))
                         (gigs d)) d) w)) as Hrun.
  { unfold update_gig. run_handler. rewrite Hfirst. by rewrite Hid. }
  subst w'. rewrite Hrun. unfold result, world_after, with_db.
  cbn [fst snd db fs gigs set_gigs].
  split; [|split; [|split; [|done]]].
  - intros k g Hk Hg. eexists. split; [by apply update_rows_lookup|].
    by rewrite decide_True.
  - intros k g Hk Hg. rewrite (update_rows_lookup _ _ _ _ _ _ Hk).
    by rewrite decide_False.
  - by eexists.
Qed.

Lemma update_gig_overwrites_witness :
  (1 ∈ Gig.id <$> rows (gigs (db demo))) ∧
  ∃ g', rows (gigs (db (world_after (update_gig 1 "Logo" "Brand" 60 demo))))
          !! 0%nat = Some g' ∧
        Gig.title g' = "Logo" ∧ Gig.price g' = 60 ∧
        Gig.description g' = "A logo" ∧ Gig.image_path g' = "uploads/logo.png".
Proof.
  assert (1 ∈ Gig.id <$> rows (gigs (db demo))) as H by compute_decision.
  destruct (update_gig_overwrites demo 1 "Logo" "Brand" 60 H) as (Hrow & _).
  destruct (Hrow 0%nat logo_gig eq_refl eq_refl)
    as (g' & Hk & Ht & _ & Hp & _ & Hd & _ & _ & Hi & _).
  exact (conj H (ex_intro _ g' (conj Hk (conj Ht (conj Hp (conj Hd Hi)))))).
Defined.

(** X11. An upload wins over what the file name held, whichever
    handler makes it and whether or not the handler then fails: after
    Gig Create, UploadPicture or Course Create with an image named
    <filename>, GetImage <filename> serves the uploaded bytes. The
    gigs that point at the path are not touched by the last two, so a
    gig's image can be replaced by another resource's upload. *)
Theorem upload_last_writer_wins w filename image :
  (∀ title description category price revisions delivery user_id,
     let w' := world_after (create_gig title description category price
                              revisions delivery user_id filename image w) in
     get_image filename w' = (Ok image, w')) ∧
  (∀ user_id,
     let w' := world_after (upload_profile_pic user_id filename image w) in
     get_image filename w' = (Ok image, w') ∧
     rows (gigs (db w')) = rows (gigs (db w))) ∧
  (∀ title instructor description category price,
     let w' := world_after (create_course title instructor description category
                              price (Some (filename, image)) w) in
     get_image filename w' = (Ok image, w') ∧
     rows (gigs (db w')) = rows (gigs (db w))).
Proof.
  split; [|split].
  - intros. subst w'. unfold create_gig. run_handler.
    unfold add_commit_refresh. simpl. destruct (gig_accepted _ _); simpl;
      unfold get_image; run_handler; by rewrite lookup_insert_eq.
  - intros. subst w'. unfold upload_profile_pic. run_handler.
    destruct (first _); simpl; (split; [|done]);
      unfold get_image; run_handler; by rewrite lookup_insert_eq.
  - intros. subst w'. unfold create_course. run_handler.
    unfold add_commit_refresh. simpl. split; [|done].
    unfold get_image. run_handler. by rewrite lookup_insert_eq.
Qed.

(** ** Jobs and applications *)

(** X12. Job Create for a stored buyer appends one job with the next
    id and the given fields, status "Pending" and no freelancer;
    ListByBuyer of the buyer then ends with it. No other table and no
    file changes. *)
Theorem post_job_round_trip w title description category budget_type deadline
    skills buyer_id :
  buyer_id ∈ user_ids (db w) →
  let job := Job.mk (seq (jobs (db w)) + 1) title description category
               "Pending" None budget_type deadline skills buyer_id in
  let w' := world_after (post_job title description category budget_type
                           deadline skills buyer_id w) in
  result (post_job title description category budget_type deadline skills
            buyer_id w) = Ok job ∧
  rows (jobs (db w')) = rows (jobs (db w)) ++ [job] ∧
  db w' = set_jobs (jobs (db w')) (db w) ∧
  fs w' = fs w ∧
  (∃ l, get_jobs_by_buyer buyer_id w' = (Ok l, w') ∧ last l = Some job).
Proof.
  intros Hin job w'.
  assert (post_job title description category budget_type deadline skills
            buyer_id w =
          (Ok job,
           with_db (set_jobs (mkTable (rows (jobs (db w)) ++ [job])
                                (seq (jobs (db w)) + 1))) w)) as Hrun.
  { unfold post_job, add_commit_refresh, job_accepted. simpl.
    by rewrite bool_decide_eq_true_2. }
  subst w'. rewrite Hrun. unfold result, world_after, with_db.
  cbn [fst snd db fs jobs set_jobs rows].
  repeat (split; [done|]).
  eexists. split; [reflexivity|]. unfold all. cbn [db jobs set_jobs rows].
  rewrite filter_app, filter_cons_True, filter_nil by done. by rewrite last_snoc.
Qed.

Lemma post_job_round_trip_witness :
  (1 ∈ user_ids (db demo)) ∧
  result (post_job "Banner" "Make it" "Web" "fixed" "May" "css" 1 demo) =
    Ok (Job.mk 3 "Banner" "Make it" "Web" "Pending" None "fixed" "May" "css" 1).
Proof.
  assert (1 ∈ user_ids (db demo)) as H by compute_decision.
  destruct (post_job_round_trip demo "Banner" "Make it" "Web" "fixed" "May"
              "css" 1 H) as (Hres & _).
  exact (conj H Hres).
Defined.

(** X13. Apply on a stored job by a stored user appends one
    application with the next id; nothing limits applications, so the
    same user applying to the same job again with the same message
    succeeds as well and the table then ends with two applications
    that differ in their id only. *)
Theorem apply_to_job_twice w job_id freelancer_id message :
  job_id ∈ job_ids (db w) →
  freelancer_id ∈ user_ids (db w) →
  let n := seq (applications (db w)) in
  let w1 := world_after (apply_to_job job_id freelancer_id message w) in
  let w2 := world_after (apply_to_job job_id freelancer_id message w1) in
  result (apply_to_job job_id freelancer_id message w) =
    Ok (Application.mk (n + 1) job_id freelancer_id message) ∧
  result (apply_to_job job_id freelancer_id message w1) =
    Ok (Application.mk (n + 2) job_id freelancer_id message) ∧
  rows (applications (db w2)) =
    rows (applications (db w)) ++
      [Application.mk (n + 1) job_id freelancer_id message;
       Application.mk (n + 2) job_id freelancer_id message] ∧
  db w2 = set_applications (applications (db w2)) (db w) ∧
  fs w2 = fs w.
Proof.
  intros Hjob Huser n w1 w2.
  assert (∀ w0, job_id ∈ job_ids (db w0) → freelancer_id ∈ user_ids (db w0) →
            apply_to_job job_id freelancer_id message w0 =
            (Ok (Application.mk (seq (applications (db w0)) + 1) job_id
                   freelancer_id message),
             with_db (set_applications
                        (mkTable (rows (applications (db w0)) ++
                                    [Application.mk (seq (applications (db w0)) + 1)
                                       job_id freelancer_id message])
                                 (seq (applications (db w0)) + 1))) w0)) as Hrun.
  { intros w0 Hj Hu.
    unfold apply_to_job, add_commit_refresh, application_accepted. simpl.
    by rewrite !bool_decide_eq_true_2. }
  subst w2 w1 n. rewrite (Hrun w Hjob Huser).
  unfold result, world_after, with_db. cbn [fst snd].
  rewrite Hrun by done. cbn [fst snd db fs applications set_applications rows seq].
  replace (seq (applications (db w)) + 1 + 1) with (seq (applications (db w)) + 2)
    by lia.
  split; [done|]. split; [done|]. split; [by rewrite <- app_assoc|done].
Qed.

Lemma apply_to_job_twice_witness :
  (1 ∈ job_ids (db demo)) ∧ (1 ∈ user_ids (db demo)) ∧
  rows (applications
          (db (world_after
                 (apply_to_job 1 1 "I can do it"
                    (world_after (apply_to_job 1 1 "I can do it" demo)))))) =
    [Application.mk 1 1 1 "I can do it"; Application.mk 2 1 1 "I can do it"].
Proof.
  assert (1 ∈ job_ids (db demo)) as Hj by compute_decision.
  assert (1 ∈ user_ids (db demo)) as Hu by compute_decision.
  destruct (apply_to_job_twice demo 1 1 "I can do it" Hj Hu)
    as (_ & _ & Hrows & _).
  exact (conj Hj (conj Hu Hrows)).
Defined.

(** X14. Job Create for a buyer_id that is no stored user, and Apply
    for a job_id that is no stored job or a freelancer_id that is no
    stored user, are rejected by the store: the handler raises
    IntegrityError and the table has the rows it had. *)
Theorem job_references_enforced w :
  (∀ title description category budget_type deadline skills buyer_id,
     buyer_id ∉ user_ids (db w) →
     let r := post_job title description category budget_type deadline skills
                buyer_id w in
     result r = Raise IntegrityError ∧
     rows (jobs (db (world_after r))) = rows (jobs (db w))) ∧
  (∀ job_id freelancer_id message,
     job_id ∉ job_ids (db w) ∨ freelancer_id ∉ user_ids (db w) →
     let r := apply_to_job job_id freelancer_id message w in
     result r = Raise IntegrityError ∧
     rows (applications (db (world_after r))) = rows (applications (db w))).
Proof.
  split.
  - intros * Hni r. subst r.
    unfold post_job, add_commit_refresh, job_accepted. simpl.
    by rewrite bool_decide_eq_false_2.
  - intros * Hni r. subst r.
    unfold apply_to_job, add_commit_refresh, application_accepted. simpl.
    destruct Hni as [Hni|Hni].
    + by rewrite (bool_decide_eq_false_2 _ Hni).
    + rewrite (bool_decide_eq_false_2 (freelancer_id ∈ user_ids (db w)) Hni).
      by rewrite andb_false_r.
Qed.

Lemma job_references_enforced_witness :
  (7 ∉ user_ids (db demo)) ∧ (5 ∉ job_ids (db demo)) ∧
  result (post_job "Banner" "Make it" "Web" "fixed" "May" "css" 7 demo) =
    Raise IntegrityError ∧
  result (apply_to_job 5 1 "I can do it" demo) = Raise IntegrityError.
Proof.
  assert (7 ∉ user_ids (db demo)) as Hu by compute_decision.
  assert (5 ∉ job_ids (db demo)) as Hj by compute_decision.
  destruct (job_references_enforced demo) as (Hpost & Happly).
  destruct (Hpost "Banner" "Make it" "Web" "fixed" "May" "css" 7 Hu) as (H1 & _).
  destruct (Happly 5 1 "I can do it" (or_introl Hj)) as (H2 & _).
  exact (conj Hu (conj Hj (conj H1 H2))).
Defined.

(** ** Courses, enrollments, contact *)



(** X16. Enrolling twice: after an Enrollment Create that succeeded,
    the same call raises Conflict and changes nothing, so the pair
    stays stored once, whatever the clock says the second time. *)
Theorem enroll_in_course_twice w now now' user_id course_id :
  ¬ enrolled user_id course_id w →
  user_id ∈ user_ids (db w) →
  course_id ∈ course_ids (db w) →
  let w1 := world_after (enroll_in_course now user_id course_id w) in
  enrolled user_id course_id w1 ∧
  enroll_in_course now' user_id course_id w1 = (Raise Conflict, w1) ∧
  length (filter (λ p, p = (user_id, course_id)) (enrollment_pairs w1)) = 1%nat.
Proof.
  intros Hne Hu Hc w1.
  assert (enrollment_accepted (db w)
            (Enrollment.mk (nextval (enrollments (db w))) user_id course_id now)
          = true) as Hacc by (by apply enrollment_accepted_refs).
  assert (enrollment_pairs w1 = enrollment_pairs w ++ [(user_id, course_id)])
    as Hpairs.
  { subst w1. rewrite (enroll_in_course_new _ _ _ _ Hne). cbv zeta.
    rewrite Hacc. unfold enrollment_pairs, world_after, with_db. simpl.
    by rewrite fmap_app. }
  assert (enrolled user_id course_id w1) as Hen.
  { unfold enrolled. rewrite Hpairs. apply elem_of_app. right. left. }
  split; [done|]. split; [by apply enroll_in_course_conflict|].
  rewrite Hpairs, filter_app, filter_cons_True, filter_nil by done.
  rewrite length_app. simpl.
  assert (filter (λ p, p = (user_id, course_id)) (enrollment_pairs w) = []) as ->;
    [|done].
  apply head_None, (first_filter_None _ (enrollment_pairs w)).
  intros p Hp ->. by apply Hne.
Qed.

Lemma enroll_in_course_twice_witness :
  enroll_in_course 1700000900 1 2
    (world_after (enroll_in_course 1700000600 1 2 demo)) =
    (Raise Conflict, world_after (enroll_in_course 1700000600 1 2 demo)).
Proof.
  assert (¬ enrolled 1 2 demo) as Hne by compute_decision.
  assert (1 ∈ user_ids (db demo)) as Hu by compute_decision.
  assert (2 ∈ course_ids (db demo)) as Hc by compute_decision.
  destruct (enroll_in_course_twice demo 1700000600 1700000900 1 2 Hne Hu Hc)
    as (_ & Hagain & _).
  exact Hagain.
Defined.


(** ** What no call does *)

(** Running a call down to the world it leaves, case by case. *)
Ltac run_call c :=
  destruct c; unfold run;
  rewrite ?get_top_freelancers_reads;
  unfold root, create_user, upload_profile_pic, get_all_users, get_user,
    update_user_first, get_user_by_email, update_user_second, create_gig,
    get_all_gigs, get_gigs_by_freelancer, get_image, update_gig, delete_gig,
    post_job, get_all_jobs, get_jobs_by_buyer, apply_to_job, update_job,
    create_course, get_all_courses, get_course, enroll_in_course,
    get_user_enrollments, submit_contact, get_dashboard_summary,
    add_commit_refresh, world_after;
  run_handler; repeat case_match; simplify_eq; simpl.

Lemma run_seq_le now c w : seq_le (db w) (db (run now c w)).
Proof. run_call c; unfold seq_le; simpl; unfold nextval; lia. Qed.

Lemma run_all_seq_le now cs w : seq_le (db w) (db (run_all now cs w)).
Proof.
  unfold run_all. revert w. induction cs as [|c cs IH]; intros w; simpl.
  - unfold seq_le. lia.
  - pose proof (run_seq_le now c w) as H1. pose proof (IH (run now c w)) as H2.
    unfold seq_le in *. lia.
Qed.

(** X18. Ids are never handed out twice: whatever calls are made in
    between, deletes included, a gig created later gets an id greater
    than the id of every gig that was stored before. *)
Theorem gig_ids_never_reused w now cs g title description category price
    revisions delivery user_id filename image g' :
  reachable w →
  g ∈ rows (gigs (db w)) →
  result (create_gig title description category price revisions delivery
            user_id filename image (run_all now cs w)) = Ok g' →
  Gig.id g < Gig.id g'.
Proof.
  intros Hreach%reachable_Inv Hg Hres.
  destruct (inv_gigs w Hreach) as [_ Hle]. specialize (Hle g Hg).
  destruct (run_all_seq_le now cs w) as (_ & Hseq & _).
  revert Hres. unfold create_gig, result. run_handler.
  unfold add_commit_refresh. simpl. destruct (gig_accepted _ _); [|done].
  simpl. intros [= <-]. simpl. unfold nextval. lia.
Qed.

Lemma gig_ids_never_reused_witness :
  result (create_gig "Flyer" "A flyer" "Print" 15 1 2 1 "flyer.png" png
            (run_all 1700000700 [CallDeleteGig 1] demo)) =
    Ok (Gig.mk 2 "Flyer" "A flyer" "Print" 15 1 2 "uploads/flyer.png" 1) ∧
  Gig.id logo_gig < 2.
Proof.
  assert (logo_gig ∈ rows (gigs (db demo))) as Hin by (vm_compute; left).
  assert (result (create_gig "Flyer" "A flyer" "Print" 15 1 2 1 "flyer.png" png
                    (run_all 1700000700 [CallDeleteGig 1] demo)) =
          Ok (Gig.mk 2 "Flyer" "A flyer" "Print" 15 1 2 "uploads/flyer.png" 1))
    as Hres by (vm_compute; reflexivity).
  exact (conj Hres
           (gig_ids_never_reused demo 1700000700 [CallDeleteGig 1] logo_gig
              "Flyer" "A flyer" "Print" 15 1 2 1 "flyer.png" png _
              demo_reachable Hin Hres)).
Defined.



(** X20. A request with method GET changes nothing: every call whose
    endpoint is registered under GET leaves the store and the uploads
    directory exactly as they were, whether it succeeds or raises. *)
Theorem get_calls_read_only now c w :
  endpoint_method (call_endpoint c) = Some GET → run now c w = w.
Proof.
  intros Hget. destruct c; try discriminate Hget; unfold run;
    rewrite ?get_top_freelancers_reads; try done;
    unfold get_user, get_user_by_email, get_image, get_course, world_after;
    run_handler; by case_match.
Qed.

Lemma get_calls_read_only_witness :
  endpoint_method (call_endpoint (CallGetImage "missing.png")) = Some GET ∧
  run 1700000700 (CallGetImage "missing.png") demo = demo.
Proof.
  split; [reflexivity|].
  exact (get_calls_read_only 1700000700 (CallGetImage "missing.png") demo eq_refl).
Defined.

(** X21. The dashboard totals move only with users, gigs and jobs being
    created and gigs being deleted: after any other call - courses,
    enrollments, applications, contacts, every update and upload, every
    read - DashboardSummary returns the totals it returned before. *)
Theorem dashboard_summary_stable now c w :
  call_endpoint c ∉ [Endpoint.create_user; Endpoint.create_gig;
                     Endpoint.post_job; Endpoint.delete_gig] →
  result (get_dashboard_summary (run now c w)) =
    result (get_dashboard_summary w).
Proof.
  intros Hother.
  assert (counted (run now c w) = counted w) as Hcount.
  { run_call c; unfold counted; simpl; rewrite ?length_fmap; try done;
      exfalso; apply Hother; set_solver. }
  unfold get_dashboard_summary, result. run_handler.
  unfold counted in Hcount. injection Hcount as H1 H2 H3. by rewrite H1, H2, H3.
Qed.

Lemma dashboard_summary_stable_witness :
  result (get_dashboard_summary
            (run 1700000700 (CallCreateCourse "Ink" "Ed" "Inking" "Design" 10 None)
               demo)) = Ok (Summary.mk 1 1 2).
Proof.
  assert (call_endpoint (CallCreateCourse "Ink" "Ed" "Inking" "Design" 10 None)
          ∉ [Endpoint.create_user; Endpoint.create_gig;
             Endpoint.post_job; Endpoint.delete_gig]) as H by compute_decision.
  exact (dashboard_summary_stable 1700000700
           (CallCreateCourse "Ink" "Ed" "Inking" "Design" 10 None) demo H).
Defined.

(** ** More on routing *)

(** X22. Every endpoint but the second [update_user] can be reached:
    the request made of its route's method and its path with the
    parameters filled in is dispatched to it, so no other route is
    hidden behind an earlier one. *)
Theorem every_other_endpoint_served (e : Endpoint.t) :
  e ≠ Endpoint.update_user_second →
  endpoint_method e = Some (request_for e).1 ∧
  ∃ path_params, dispatch (request_for e).1 (request_for e).2 =
                   Matched e path_params.
Proof.
  intros Hne. destruct e; try done; (split; [reflexivity|]);
    eexists; vm_compute; reflexivity.
Qed.

Lemma every_other_endpoint_served_witness :
  ∃ path_params, dispatch GET ["gigs"; "image"; "logo.png"] =
                   Matched Endpoint.get_image path_params.
Proof.
  assert (Endpoint.get_image ≠ Endpoint.update_user_second) as H by discriminate.
  destruct (every_other_endpoint_served Endpoint.get_image H) as (_ & Hd).
  exact Hd.
Defined.

(** X23. The method DELETE reaches Gig Delete and nothing else: a
    DELETE request that is dispatched at all has the path /gigs/<id>
    with a non-empty <id>, which is the one path parameter. *)
Theorem delete_requests_reach_gig_delete path e path_params :
  dispatch DELETE path = Matched e path_params →
  e = Endpoint.delete_gig ∧
  ∃ s, s ≠ "" ∧ path = ["gigs"; s] ∧ path_params = [("gig_id", s)].
Proof.
  intros Hd. apply dispatch_matched, route_request_first_match in Hd
    as (i & r & Hi & He & Hm & Hp & _).
  assert (i = 13%nat) as ->.
  { unfold routes in Hi.
    do 27 (destruct i as [|i]; [simpl in Hi; simplify_eq; try done|]).
    done. }
  simpl in Hi. simplify_eq. split; [done|]. simpl in Hp.
  destruct path as [|a [|s [|x path]]]; simpl in Hp; try done;
    repeat (case_decide; simplify_eq; try done).
  by exists s.
Qed.

Lemma delete_requests_reach_gig_delete_witness :
  dispatch DELETE ["gigs"; "1"] = Matched Endpoint.delete_gig [("gig_id", "1")] ∧
  Endpoint.delete_gig = Endpoint.delete_gig.
Proof.
  assert (dispatch DELETE ["gigs"; "1"] =
          Matched Endpoint.delete_gig [("gig_id", "1")]) as Hd
    by (vm_compute; reflexivity).
  destruct (delete_requests_reach_gig_delete _ _ _ Hd) as (He & _).
  exact (conj Hd He).
Defined.

(** ** Reachable worlds *)

Lemma NoDup_fmap_eq {A B} (f : A → B) (l : list A) x y :
  NoDup (f <$> l) → x ∈ l → y ∈ l → f x = f y → x = y.
Proof.
  induction l as [|a l IH]; intros Hnd Hx Hy Hf; [by apply elem_of_nil in Hx|].
  rewrite fmap_cons in Hnd. apply NoDup_cons in Hnd as [Ha Hnd].
  apply elem_of_cons in Hx as [->|Hx]; apply elem_of_cons in Hy as [->|Hy].
  - done.
  - destruct Ha. rewrite Hf. by apply list_elem_of_fmap_2.
  - destruct Ha. rewrite <- Hf. by apply list_elem_of_fmap_2.
  - by apply IH.
Qed.

Lemma first_filter_key {A B} `{EqDecision B} (f : A → B) (l : list A) x :
  NoDup (f <$> l) → x ∈ l → first (filter (λ r, f r = f x) l) = Some x.
Proof.
  intros Hnd Hx.
  destruct (first_filter_is_Some (λ r, f r = f x) l x Hx eq_refl) as [y Hy].
  rewrite Hy. f_equal.
  apply first_filter_Some in Hy as [Hf Hyl]. by apply (NoDup_fmap_eq f l).
Qed.

(** X24. In every world the API can reach from the empty store, a look
    up by a key gives back the row that holds it: Get on the id of a
    stored user or course returns exactly that row, and GetByEmail on
    the email of a stored user returns exactly that user. *)
Theorem reachable_lookups w :
  reachable w →
  (∀ u, u ∈ rows (users (db w)) → get_user (User.id u) w = (Ok u, w)) ∧
  (∀ u, u ∈ rows (users (db w)) →
        get_user_by_email (User.email u) w = (Ok u, w)) ∧
  (∀ c, c ∈ rows (courses (db w)) → get_course (Course.id c) w = (Ok c, w)).
Proof.
  intros Hreach%reachable_Inv.
  destruct (inv_users w Hreach) as [Hu _].
  destruct (inv_courses w Hreach) as [Hc _].
  pose proof (inv_emails w Hreach) as He.
  split; [|split].
  - intros u Hin. unfold get_user. run_handler.
    by rewrite (first_filter_key User.id _ _ Hu Hin).
  - intros u Hin. unfold get_user_by_email. run_handler.
    by rewrite (first_filter_key User.email _ _ He Hin).
  - intros c Hin. unfold get_course. run_handler.
    by rewrite (first_filter_key Course.id _ _ Hc Hin).
Qed.

Lemma reachable_lookups_witness :
  get_user_by_email "ana@x.com" demo =
    (Ok (User.mk 1 "Ana" "ana@x.com" "freelancer" (Some "Designer")
           (Some "logos") 0 None), demo).
Proof.
  destruct (reachable_lookups demo demo_reachable) as (_ & Hmail & _).
  apply (Hmail (User.mk 1 "Ana" "ana@x.com" "freelancer" (Some "Designer")
                  (Some "logos") 0 None)).
  vm_compute. left.
Defined.

(** X25. In every reachable world the ids of each table are distinct
    and none is larger than the last id the table's sequence handed
    out, and no two users share an email. *)
Theorem reachable_keys w :
  reachable w →
  ids_ok User.id (users (db w)) ∧
  ids_ok Gig.id (gigs (db w)) ∧
  ids_ok Job.id (jobs (db w)) ∧
  ids_ok Application.id (applications (db w)) ∧
  ids_ok Course.id (courses (db w)) ∧
  ids_ok Enrollment.id (enrollments (db w)) ∧
  ids_ok Contact.id (contacts (db w)) ∧
  NoDup (User.email <$> rows (users (db w))).
Proof.
  intros [Hus Hgs Hjs Has Hcs Hes Hks Hem _ _ _ _ _ _]%reachable_Inv.
  by repeat (split; [assumption|]).
Qed.

Lemma reachable_keys_witness :
  NoDup (Course.id <$> rows (courses (db demo))) ∧
  NoDup (User.email <$> rows (users (db demo))).
Proof.
  destruct (reachable_keys demo demo_reachable)
    as (_ & _ & _ & _ & [Hc _] & _ & _ & He).
  exact (conj Hc He).
Defined.

(** X26. In every reachable world each reference resolves: the owner
    of every gig and the buyer of every job are stored users, every
    application names a stored job and a stored user, and every
    enrollment names a stored user and a stored course. *)
Theorem reachable_references w :
  reachable w →
  (∀ g, g ∈ rows (gigs (db w)) →
        ∃ u, u ∈ rows (users (db w)) ∧ User.id u = Gig.user_id g) ∧
  (∀ j, j ∈ rows (jobs (db w)) →
        ∃ u, u ∈ rows (users (db w)) ∧ User.id u = Job.buyer_id j) ∧
  (∀ a, a ∈ rows (applications (db w)) →
        (∃ j, j ∈ rows (jobs (db w)) ∧ Job.id j = Application.job_id a) ∧
        (∃ u, u ∈ rows (users (db w)) ∧ User.id u = Application.freelancer_id a)) ∧
  (∀ e, e ∈ rows (enrollments (db w)) →
        (∃ u, u ∈ rows (users (db w)) ∧ User.id u = Enrollment.user_id e) ∧
        (∃ c, c ∈ rows (courses (db w)) ∧ Course.id c = Enrollment.course_id e)).
Proof.
  intros Hreach%reachable_Inv.
  assert (∀ A (id : A → Z) (l : list A) i, i ∈ id <$> l → ∃ r, r ∈ l ∧ id r = i)
    as Hrow.
  { intros A id l i (r & -> & Hr)%list_elem_of_fmap. eauto. }
  split; [|split; [|split]].
  - intros g Hg. by apply Hrow, (inv_gig_owner w Hreach).
  - intros j Hj. by apply Hrow, (inv_job_buyer w Hreach).
  - intros a Ha. destruct (inv_application_refs w Hreach a Ha).
    split; by apply Hrow.
  - intros e He. destruct (inv_enrollment_refs w Hreach e He).
    split; by apply Hrow.
Qed.

Lemma reachable_references_witness :
  ∃ u, u ∈ rows (users (db demo)) ∧ User.id u = Gig.user_id logo_gig.
Proof.
  destruct (reachable_references demo demo_reachable) as (Hgig & _).
  apply Hgig. vm_compute. left.
Defined.

(** X27. In every reachable world, ListByFreelancer, ListByBuyer and
    ListByUser for an id that is no stored user do not raise NotFound:
    each returns the empty list and changes nothing. *)
Theorem lists_of_unknown_user w i :
  reachable w →
  i ∉ user_ids (db w) →
  get_gigs_by_freelancer i w = (Ok [], w) ∧
  get_jobs_by_buyer i w = (Ok [], w) ∧
  get_user_enrollments i w = (Ok [], w).
Proof.
  intros Hreach%reachable_Inv Hni.
  assert (∀ A (P : A → Prop) `{∀ x, Decision (P x)} (l : list A),
            (∀ x, x ∈ l → ¬ P x) → filter P l = []) as Hnone.
  { intros A P ? l Hl. apply head_None. by apply (first_filter_None P l). }
  unfold get_gigs_by_freelancer, get_jobs_by_buyer, get_user_enrollments, all.
  run_handler. rewrite !Hnone; [done| | |].
  - intros e He Hu. apply Hni. rewrite <- Hu.
    by apply (inv_enrollment_refs w Hreach).
  - intros j Hj Hu. apply Hni. rewrite <- Hu. by apply (inv_job_buyer w Hreach).
  - intros g Hg Hu. apply Hni. rewrite <- Hu. by apply (inv_gig_owner w Hreach).
Qed.

Lemma lists_of_unknown_user_witness :
  (8 ∉ user_ids (db demo)) ∧ get_jobs_by_buyer 8 demo = (Ok [], demo).
Proof.
  assert (8 ∉ user_ids (db demo)) as H by compute_decision.
  destruct (lists_of_unknown_user demo 8 demo_reachable H) as (_ & Hjobs & _).
  exact (conj H Hjobs).
Defined.

Lemma delete_gig_image_still_served_witness :
  ∃ filename content,
    Gig.image_path logo_gig = upload_path filename ∧
    get_image filename (world_after (delete_gig 1 demo)) =
      (Ok content, world_after (delete_gig 1 demo)).
Proof.
  assert (logo_gig ∈ rows (gigs (db demo))) as Hin by (vm_compute; left).
  destruct (delete_gig_image_still_served demo logo_gig demo_reachable Hin)
    as (filename & content & Hpath & _ & Himg).
  exact (ex_intro _ filename (ex_intro _ content (conj Hpath Himg))).
Defined.

Lemma enrollment_pairs_unique_witness :
  NoDup (enrollment_pairs
           (run_all 1700000800
              [CallEnrollInCourse 1 2; CallEnrollInCourse 1 2;
               CallEnrollInCourse 1 3] demo)).
Proof.
  apply enrollment_pairs_unique. apply run_all_reachable. exact demo_reachable.
Defined.
